(** * gomon datasource: process connection correlation and node graph assembly

    A shallow embedding of

    - [connections] (package main, pkg/connection.go): the endpoint index,
      the per-descriptor classification, the bidirectional duplicate check,
      the parent connections and the final ordering;
    - the edge bookkeeping of [Nodegraph] (package plugin) together with its
      deferred recover.

    Go maps are [gmap]s.  Go randomises the order of every [range] over a
    map, so each such loop takes the order it visits the entries in as an
    explicit argument.  A run-time panic is a value of [result]; a deferred
    [recover] is the function that maps it back to what the caller sees. *)

From Stdlib Require Import ZArith String Ascii List Lia DecimalString DecimalPos DecimalZ.
From stdpp Require Import gmap strings list fin_maps sorting.

Set Warnings "-clear-no-such-hyp".

Local Open Scope string_scope.
Local Open Scope Z_scope.
Local Open Scope list_scope.

(** ** Run-time panics *)

Inductive fault : Set :=
  | NilDereference
  | IndexOutOfRange
  | SliceBounds.

Inductive result (A : Type) : Type :=
  | Ok (a : A)
  | Panic (f : fault).

Arguments Ok {A} a.
Arguments Panic {A} f.

#[global] Instance result_ret : MRet result := fun A a => Ok a.

#[global] Instance result_bind : MBind result := fun A B k r =>
  match r with
  | Ok a => k a
  | Panic f => Panic f
  end.

(** [foldM] is a Go loop whose body may panic: the state is threaded from
    left to right and the first panic ends the loop. *)
Fixpoint foldM {A S} (f : S → A → result S) (s : S) (l : list A) : result S :=
  match l with
  | [] => Ok s
  | x :: l' => s' ← f s x; foldM f s' l'
  end.

(** Dereference of a pointer that may be nil. *)
Definition deref {A} (p : option A) : result A :=
  match p with
  | Some a => Ok a
  | None => Panic NilDereference
  end.

(** Indexing of a slice. *)
Definition index {A} (l : list A) (i : nat) : result A :=
  match l !! i with
  | Some a => Ok a
  | None => Panic IndexOutOfRange
  end.

(** ** Library functions the code calls *)

(** [strconv.Itoa], also what the verb [%d] of [fmt.Sprintf] prints. *)
Definition Itoa (n : Z) : string := NilZero.string_of_int (Z.to_int n).

(** No byte of [s] is a space. *)
Fixpoint no_space (s : string) : Prop :=
  match s with
  | EmptyString => True
  | String c s' => c ≠ " "%char ∧ no_space s'
  end.

(** [sort.Slice] with the comparison [less].  Both uses in the code sort the
    keys of a map, which are pairwise distinct, with a [less] that is a
    strict total order; the sorted slice is then unique, and insertion
    sort computes it. *)
Fixpoint insert_by {A} (less : A → A → bool) (x : A) (l : list A) : list A :=
  match l with
  | [] => [x]
  | y :: l' => if less y x then y :: insert_by less x l' else x :: l
  end.

Definition sort_Slice {A} (less : A → A → bool) (l : list A) : list A :=
  foldr (insert_by less) [] l.

(** *** Package net *)

Module net.

(** [type IP []byte]; the nil slice is the empty list. *)
Definition IP := list Z.

Definition IPv4len : nat := 4.
Definition IPv6len : nat := 16.

Definition v4InV6Prefix : IP := [0; 0; 0; 0; 0; 0; 0; 0; 0; 0; 255; 255].

Definition IPv4 (a b c d : Z) : IP := v4InV6Prefix ++ [a; b; c; d].

Definition IPv6loopback : IP := [0; 0; 0; 0; 0; 0; 0; 0; 0; 0; 0; 0; 0; 0; 0; 1].

Definition bytes_eqb (x y : IP) : bool := bool_decide (x = y).

Definition To4 (ip : IP) : IP :=
  if (length ip =? IPv4len)%nat then ip
  else if (length ip =? IPv6len)%nat
          && bytes_eqb (take 10 ip) (replicate 10 0)
          && bytes_eqb (take 2 (drop 10 ip)) [255; 255]
       then drop 12 ip
       else [].

Definition byte_at (ip : IP) (i : nat) : Z := default 0 (ip !! i).

Definition Equal (ip x : IP) : bool :=
  if (length ip =? length x)%nat then bytes_eqb ip x
  else if (length ip =? IPv4len)%nat && (length x =? IPv6len)%nat
       then bytes_eqb (take 12 x) v4InV6Prefix && bytes_eqb ip (drop 12 x)
  else if (length ip =? IPv6len)%nat && (length x =? IPv4len)%nat
       then bytes_eqb (take 12 ip) v4InV6Prefix && bytes_eqb (drop 12 ip) x
  else false.

Definition IsLoopback (ip : IP) : bool :=
  match To4 ip with
  | [] => Equal ip IPv6loopback
  | ip4 => byte_at ip4 0 =? 127
  end.

Definition IsInterfaceLocalMulticast (ip : IP) : bool :=
  (length ip =? IPv6len)%nat && (byte_at ip 0 =? 255)
  && (Z.land (byte_at ip 1) 15 =? 1).

Definition IsLinkLocalMulticast (ip : IP) : bool :=
  match To4 ip with
  | [] => (length ip =? IPv6len)%nat && (byte_at ip 0 =? 255)
          && (Z.land (byte_at ip 1) 15 =? 2)
  | ip4 => (byte_at ip4 0 =? 224) && (byte_at ip4 1 =? 0) && (byte_at ip4 2 =? 0)
  end.

Definition IsLinkLocalUnicast (ip : IP) : bool :=
  match To4 ip with
  | [] => (length ip =? IPv6len)%nat && (byte_at ip 0 =? 254)
          && (Z.land (byte_at ip 1) 192 =? 128)
  | ip4 => (byte_at ip4 0 =? 169) && (byte_at ip4 1 =? 254)
  end.

(** Strings as byte sequences. *)
Definition bytes (s : string) : list ascii := list_ascii_of_string s.
Definition str (l : list ascii) : string := string_of_list_ascii l.

Fixpoint IndexByte (l : list ascii) (c : ascii) : option nat :=
  match l with
  | [] => None
  | x :: l' => if Ascii.eqb x c then Some 0%nat else S <$> IndexByte l' c
  end.

Fixpoint LastIndexByte (l : list ascii) (c : ascii) : option nat :=
  match l with
  | [] => None
  | x :: l' =>
      match LastIndexByte l' c with
      | Some i => Some (S i)
      | None => if Ascii.eqb x c then Some 0%nat else None
      end
  end.

Definition has (l : list ascii) (c : ascii) : bool :=
  bool_decide (is_Some (IndexByte l c)).

(** [SplitHostPort hostport]: host, port and whether an error is
    returned (host and port are then empty). *)
Definition SplitHostPort (hostport : string) : string * string * bool :=
  let hp := bytes hostport in
  let addrErr := ("", "", true) in
  match LastIndexByte hp ":" with
  | None => addrErr
  | Some i =>
      match hp with
      | "["%char :: _ =>
          match IndexByte hp "]" with
          | None => addrErr
          | Some end_ =>
              if (end_ + 1 =? length hp)%nat then addrErr
              else if (end_ + 1 =? i)%nat then
                if has (drop 1 hp) "[" then addrErr
                else if has (drop (end_ + 1) hp) "]" then addrErr
                else (str (drop 1 (take end_ hp)), str (drop (i + 1) hp), false)
              else addrErr
          end
      | _ =>
          let host := take i hp in
          if has host ":" then addrErr
          else if has hp "[" then addrErr
          else if has hp "]" then addrErr
          else (str host, str (drop (i + 1) hp), false)
      end
  end.

Definition is_digit (c : ascii) : bool :=
  (48 <=? nat_of_ascii c)%nat && (nat_of_ascii c <=? 57)%nat.

Definition big : Z := 16777215.

(** [dtoi s]: the decimal number [s] starts with, the number of bytes
    read and success. *)
Fixpoint dtoi_from (s : list ascii) (n : Z) (i : nat) : Z * nat * bool :=
  match s with
  | c :: s' =>
      if is_digit c then
        let n' := n * 10 + (Z.of_nat (nat_of_ascii c) - 48) in
        if big <=? n' then (big, i, false) else dtoi_from s' n' (S i)
      else if (i =? 0)%nat then (0, 0%nat, false) else (n, i, true)
  | [] => if (i =? 0)%nat then (0, 0%nat, false) else (n, i, true)
  end.

Definition dtoi (s : list ascii) : Z * nat * bool := dtoi_from s 0 0%nat.

(** [parseIPv4]: the loop over the four octets, [i] counting down. *)
Fixpoint parseIPv4_from (s : list ascii) (first : bool) (i : nat) (p : list Z) : IP :=
  match i with
  | O => match s with [] => IPv4 (byte_at p 0) (byte_at p 1) (byte_at p 2) (byte_at p 3)
                    | _ => [] end
  | S i' =>
      match s with
      | [] => []
      | c0 :: rest =>
          let after_dot :=
            if first then Some s
            else if Ascii.eqb c0 "." then Some rest else None in
          match after_dot with
          | None => []
          | Some s1 =>
              let '(n, c, ok) := dtoi s1 in
              if negb ok || (255 <? n) then []
              else if (1 <? c)%nat && bool_decide (head s1 = Some "0"%char) then []
              else parseIPv4_from (drop c s1) false i' (p ++ [n])
          end
      end
  end.

Definition parseIPv4 (s : string) : IP := parseIPv4_from (bytes s) true 4 [].

Fixpoint dotted (l : list Z) : string :=
  match l with
  | [] => ""
  | [x] => Itoa x
  | x :: l' => Itoa x +:+ "." +:+ dotted l'
  end.

Section ipv6.
(** The textual form of IPv6 addresses is not needed to follow the
    code; its parser and printer are left abstract. *)
Variable parseIPv6 : string → IP.
Variable ipv6String : IP → string.

Fixpoint ParseIP_scan (l : list ascii) (s : string) : IP :=
  match l with
  | [] => []
  | c :: l' =>
      if Ascii.eqb c "." then parseIPv4 s
      else if Ascii.eqb c ":" then parseIPv6 s
      else ParseIP_scan l' s
  end.

Definition ParseIP (s : string) : IP := ParseIP_scan (bytes s) s.

Definition String (ip : IP) : string :=
  match ip with
  | [] => "<nil>"
  | _ => match To4 ip with
         | [] => ipv6String ip
         | p4 => dotted p4
         end
  end.
End ipv6.

End net.

(** * Package main: [connections] *)

Module Main.

Abbreviation Pid := Z.

Definition MaxInt32 : Z := 2147483647.

(** One open descriptor of a process, as the lsof reader builds it
    ([Connection{Descriptor, Type, Name, Self, Peer}]). *)
Record Connection := {
  Descriptor : Z;
  Type_ : string;
  Name : string;
  Self : string;
  Peer : string;
}.

(** The fields of [process] that [connections] reads. *)
Record process := {
  Ppid : Pid;
  Exec : string;
  Connections : list Connection;
}.

(** [type processTable map[Pid]*process]: an entry may hold nil. *)
Abbreviation processTable := (gmap Z (option process)).

Record endpoint := {
  pid : Pid;
  fd : Z;
  command : string;
  name : string;
}.

Record connection := {
  ftype : string;
  cname : string;
  self : endpoint;
  peer : endpoint;
}.

(** The zero values Go hands out for a missing map key. *)
Definition endpoint_zero : endpoint :=
  {| pid := 0; fd := 0; command := ""; name := "" |}.
Definition connection_zero : connection :=
  {| ftype := ""; cname := ""; self := endpoint_zero; peer := endpoint_zero |}.

(** [map[[4]int]connection] and [map[string]map[Pid][]int]. *)
Abbreviation key := (Z * Z * Z * Z)%type.
Abbreviation connmap := (gmap (Z * Z * Z * Z) connection).
Abbreviation epmap := (gmap string (gmap Z (list nat))).

(** [pt[pid]]: nil when the key is absent. *)
Definition at_pid (pt : processTable) (pid : Pid) : option process :=
  mjoin (pt !! pid).

(** The case list ["FIFO", "PIPE", "TCP", "UDP", "unix"]. *)
Definition transport (t : string) : bool :=
  bool_decide (t ∈ ["FIFO"; "PIPE"; "TCP"; "UDP"; "unix"]).

Definition data (t : string) : bool := bool_decide (t ∈ ["REG"; "PSXSHM"]).

Definition epkey (t e : string) : string := t +:+ ": " +:+ e.

(** *** The endpoint index *)

(** The body of the inner loop that builds [epm]. *)
Definition epm_add (pid : Pid) (epm : epmap) (ic : nat * Connection) : epmap :=
  let '(i, conn) := ic in
  if String.eqb (Self conn) "" then epm
  else if transport (Type_ conn) then
    let self := epkey (Type_ conn) (Self conn) in
    let m := default ∅ (epm !! self) in
    <[self := <[pid := default [] (m !! pid) ++ [i]]> m]> epm
  else epm.

Definition epm_process (epm : epmap) (e : Pid * option process) : result epmap :=
  p ← deref e.2;
  Ok (foldl (epm_add e.1) epm (imap pair (Connections p))).

Definition build_epm (order : list (Pid * option process)) : result epmap :=
  foldM epm_process ∅ order.

(** The index of a completed first loop. *)
Definition index_of (order : list (Pid * option process)) : epmap :=
  match build_epm order with
  | Ok epm => epm
  | Panic _ => ∅
  end.

(** *** Classification of one descriptor *)

(** What the host contributes: its addresses ([localIps] and
    [interfaces], computed once at start-up) and the textual form of
    IPv6 addresses. *)
Record host := {
  parseIPv6 : string → net.IP;
  ipv6String : net.IP → string;
  localIps : gset string;
  interfaces : gmap string string;
}.

Section host.
Variable h : host.

(** The test that guards the record of an external connection, and the
    port it stores as the endpoint's command. *)
Definition remote (peername : string) : bool :=
  let '(host, port, _) := net.SplitHostPort peername in
  let ip := net.ParseIP (parseIPv6 h) host in
  let ok := bool_decide (net.String (ipv6String h) ip ∈ localIps h) in
  let ok2 := bool_decide (is_Some (interfaces h !! net.String (ipv6String h) ip)) in
  negb (ok || ok2 || net.IsLoopback ip || net.IsInterfaceLocalMulticast ip
        || net.IsLinkLocalMulticast ip || net.IsLinkLocalUnicast ip).

Definition port_of (peername : string) : string :=
  (net.SplitHostPort peername).1.2.

Definition self_endpoint (pid : Pid) (p : process) (conn : Connection) : endpoint :=
  {| pid := pid; fd := Descriptor conn; command := Exec p; name := Self conn |}.

Definition parent_connection (ppid : Pid) (pp : process) (pid : Pid) (p : process)
  : connection :=
  {| ftype := "parent:" +:+ Itoa ppid;
     cname := "child:" +:+ Itoa pid;
     self := {| pid := ppid; fd := -1; command := Exec pp; name := "parent" |};
     peer := {| pid := pid; fd := -1; command := Exec p; name := "child" |} |}.

Definition data_connection (pid : Pid) (p : process) (conn : Connection) : connection :=
  {| ftype := Type_ conn;
     cname := Name conn;
     self := self_endpoint pid p conn;
     peer := {| pid := MaxInt32; fd := 0; command := ""; name := Name conn |} |}.

Definition kernel_connection (pid : Pid) (p : process) (conn : Connection) : connection :=
  {| ftype := Type_ conn;
     cname := Name conn;
     self := self_endpoint pid p conn;
     peer := {| pid := 0; fd := 0; command := Peer conn; name := Name conn |} |}.

Definition external_connection (pid : Pid) (p : process) (conn : Connection) : connection :=
  {| ftype := Type_ conn;
     cname := Name conn;
     self := {| pid := -1; fd := -1; command := port_of (Peer conn);
                name := Peer conn |};
     peer := self_endpoint pid p conn |}.

Definition peer_connection (pid : Pid) (p : process) (conn : Connection)
    (rpid : Pid) (rp : process) (rconn : Connection) : connection :=
  {| ftype := Type_ conn;
     cname := Name conn;
     self := self_endpoint pid p conn;
     peer := {| pid := rpid; fd := Descriptor rconn; command := Exec rp;
                name := Peer conn |} |}.

(** The condition under which [rconn] is taken as the other end of
    [conn]. *)
Definition reciprocal (conn rconn : Connection) : bool :=
  String.eqb (Type_ conn) (Type_ rconn)
  && String.eqb (Peer conn) (Self rconn)
  && (String.eqb (Peer rconn) (Self conn)
      || String.eqb (Peer rconn) ""
         && (String.eqb (Type_ conn) "PSXSHM" || String.eqb (Type_ conn) "unix")).

Definition known (connm : connmap) (k : key) : bool :=
  bool_decide (is_Some (connm !! k)).

Variable pt : processTable.
Variable epm : epmap.

(** The innermost loop body: one candidate descriptor [i] of [rpid]. *)
Definition candidate_step (pid : Pid) (p : process) (conn : Connection) (rpid : Pid)
    (connm : connmap) (i : nat) : result connmap :=
  rp ← deref (at_pid pt rpid);
  rconn ← index (Connections rp) i;
  if negb (reciprocal conn rconn) then Ok connm
  else
    let fd := Descriptor conn in
    let rfd := Descriptor rconn in
    if known connm (pid, fd, rpid, rfd) then Ok connm
    else if known connm (rpid, rfd, pid, fd) then Ok connm
    else Ok (<[(pid, fd, rpid, rfd) := peer_connection pid p conn rpid rp rconn]> connm).

(** The loop over the sorted candidate process ids. *)
Definition rpid_step (pid : Pid) (p : process) (conn : Connection)
    (m : gmap Z (list nat)) (connm : connmap) (rpid : Pid) : result connmap :=
  if pid =? rpid then Ok connm
  else foldM (candidate_step pid p conn rpid) connm (default [] (m !! rpid)).

Definition rpids (m : gmap Z (list nat)) : list Pid :=
  sort_Slice Z.ltb (map_to_list m).*1.

(** The body of the loop over the descriptors of process [pid]. *)
Definition descriptor_step (pid : Pid) (p : process) (connm : connmap)
    (conn : Connection) : result connmap :=
  let fd := Descriptor conn in
  if String.eqb (Type_ conn) "NUL" then Ok connm
  else if data (Type_ conn) then
    Ok (<[(pid, fd, MaxInt32, 0) := data_connection pid p conn]> connm)
  else if String.eqb (Type_ conn) "systm" then
    Ok (<[(pid, fd, 0, 0) := kernel_connection pid p conn]> connm)
  else if transport (Type_ conn) then
    if String.eqb (Peer conn) "" then Ok connm
    else
      match epm !! epkey (Type_ conn) (Peer conn) with
      | None =>
          if String.eqb (Type_ conn) "TCP" || String.eqb (Type_ conn) "UDP" then
            if remote (Peer conn)
            then Ok (<[(-1, -1, pid, fd) := external_connection pid p conn]> connm)
            else Ok connm
          else Ok connm
      | Some m => foldM (rpid_step pid p conn m) connm (rpids m)
      end
  else Ok connm.

(** The body of the loop over the processes. *)
Definition process_step (connm : connmap) (e : Pid * option process) : result connmap :=
  let pid := e.1 in
  p ← deref e.2;
  let ppid := Ppid p in
  pp ← deref (at_pid pt ppid);
  foldM (descriptor_step pid p)
        (<[(ppid, -1, pid, -1) := parent_connection ppid pp pid p]> connm)
        (Connections p).

Definition correlate (order : list (Pid * option process)) : result connmap :=
  foldM process_step ∅ order.

(** *** The writes of a pass

    [emits connm k c]: in state [connm] the pass may execute
    [connm[k] = c].  One constructor per assignment to [connm] in the
    source, with the tests that guard it. *)
Inductive emits (connm : connmap) : key → connection → Prop :=
  | emits_parent pid p pp :
      pt !! pid = Some (Some p) →
      at_pid pt (Ppid p) = Some pp →
      emits connm (Ppid p, -1, pid, -1) (parent_connection (Ppid p) pp pid p)
  | emits_data pid p conn :
      pt !! pid = Some (Some p) →
      conn ∈ Connections p →
      data (Type_ conn) →
      emits connm (pid, Descriptor conn, MaxInt32, 0) (data_connection pid p conn)
  | emits_kernel pid p conn :
      pt !! pid = Some (Some p) →
      conn ∈ Connections p →
      Type_ conn = "systm" →
      emits connm (pid, Descriptor conn, 0, 0) (kernel_connection pid p conn)
  | emits_external pid p conn :
      pt !! pid = Some (Some p) →
      conn ∈ Connections p →
      Type_ conn = "TCP" ∨ Type_ conn = "UDP" →
      Peer conn ≠ "" →
      epm !! epkey (Type_ conn) (Peer conn) = None →
      remote (Peer conn) →
      emits connm (-1, -1, pid, Descriptor conn) (external_connection pid p conn)
  | emits_peer pid p conn m rpid ix i rp rconn :
      pt !! pid = Some (Some p) →
      conn ∈ Connections p →
      transport (Type_ conn) →
      Peer conn ≠ "" →
      epm !! epkey (Type_ conn) (Peer conn) = Some m →
      m !! rpid = Some ix →
      i ∈ ix →
      rpid ≠ pid →
      at_pid pt rpid = Some rp →
      Connections rp !! i = Some rconn →
      reciprocal conn rconn →
      connm !! (pid, Descriptor conn, rpid, Descriptor rconn) = None →
      connm !! (rpid, Descriptor rconn, pid, Descriptor conn) = None →
      emits connm (pid, Descriptor conn, rpid, Descriptor rconn)
            (peer_connection pid p conn rpid rp rconn).

(** [evolves connm connm']: a sequence of such writes leads from
    [connm] to [connm']. *)
Inductive evolves : connmap → connmap → Prop :=
  | evolves_refl connm : evolves connm connm
  | evolves_step connm k c connm' :
      emits connm k c → evolves (<[k := c]> connm) connm' → evolves connm connm'.

End host.

(** Descriptor [i] of process [pid] is filed under [k] in the index. *)
Definition occurs (epm : epmap) (k : string) (pid : Pid) (i : nat) : Prop :=
  ∃ m ix, epm !! k = Some m ∧ m !! pid = Some ix ∧ i ∈ ix.

(** The descriptors the index files: those of a transport type with a
    local endpoint. *)
Definition indexed (conn : Connection) : bool :=
  negb (String.eqb (Self conn) "") && transport (Type_ conn).

(** [epm[k][pid]], nil when a key is absent. *)
Definition filed (epm : epmap) (k : string) (pid : Pid) : list nat :=
  default [] (epm !! k ≫= (.!! pid)).

(** The positions, among numbered descriptors, of those filed under [k]. *)
Definition positions (k : string) (l : list (nat * Connection)) : list nat :=
  omap (λ ic, if indexed ic.2 && String.eqb (epkey (Type_ ic.2) (Self ic.2)) k
              then Some ic.1 else None) l.

Definition positions_of (k : string) (op : option (option process)) : list nat :=
  match op with
  | Some (Some p) => positions k (imap pair (Connections p))
  | _ => []
  end.

(** The key a connection is stored under. *)
Definition key_of (c : connection) : key :=
  (pid (self c), fd (self c), pid (peer c), fd (peer c)).

(** *** The ordered result *)

Definition key_less (a b : key) : bool :=
  let '(a0, a1, a2, a3) := a in
  let '(b0, b1, b2, b3) := b in
  (a0 <? b0) || (a0 =? b0) && ((a2 <? b2) || (a2 =? b2) && ((a1 <? b1) ||
    (a1 =? b1) && (a3 <? b3))).

Definition ordered (keys : list key) (connm : connmap) : list connection :=
  (λ k, default connection_zero (connm !! k)) <$> sort_Slice key_less keys.

(** The function body up to a panic.  [order1] and [order2] are the
    orders in which the two loops over [pt] visit its entries. *)
Definition connections_body (h : host) (order1 order2 : list (Pid * option process))
    (pt : processTable) : result (list connection) :=
  epm ← build_epm order1;
  connm ← correlate h pt epm order2;
  Ok (ordered (map_to_list connm).*1 connm).

(** The deferred function recovers from a panic and logs it; the result
    is not named, so the caller then receives nil. *)
Definition connections (h : host) (order1 order2 : list (Pid * option process))
    (pt : processTable) : list connection :=
  match connections_body h order1 order2 pt with
  | Ok conns => conns
  | Panic _ => []
  end.

(** [order] is an order in which a [range] may visit the entries of [pt]. *)
Definition visits (pt : processTable) (order : list (Pid * option process)) : Prop :=
  NoDup order.*1 ∧ list_to_map order = pt.

(** The comparison of the final sort, as a relation: by self process,
    then peer process, then self descriptor, then peer descriptor. *)
Definition key_lt (a b : key) : Prop :=
  let '(a0, a1, a2, a3) := a in
  let '(b0, b1, b2, b3) := b in
  a0 < b0 ∨ a0 = b0 ∧ (a2 < b2 ∨ a2 = b2 ∧ (a1 < b1 ∨ a1 = b1 ∧ a3 < b3)).

(** [keys] lists the keys of [connm], each once, in any order: what the
    last [range] may produce. *)
Definition enumerates (connm : connmap) (keys : list key) : Prop :=
  keys ≡ₚ (map_to_list connm).*1.

(** No entry of the index is empty. *)
Definition inhabited_entries (epm : epmap) : Prop :=
  ∀ k m, epm !! k = Some m →
    m ≠ ∅ ∧ ∀ pid ix, m !! pid = Some ix → ix ≠ [].

(** [accepted pt pid p conn m connm k c]: while descriptor [conn] of
    process [pid] is processed in state [connm] with candidates [m],
    some candidate descriptor of another process meets the reciprocal
    condition, its pair with [conn] is not recorded in the other
    direction, [k] is the key of the pair and [c] the connection. *)
Definition accepted (pt : processTable) (pid : Pid) (p : process) (conn : Connection)
    (m : gmap Z (list nat)) (connm : connmap) (k : key) (c : connection) : Prop :=
  ∃ rpid ix i rp rconn,
    m !! rpid = Some ix ∧ i ∈ ix ∧ rpid ≠ pid
    ∧ at_pid pt rpid = Some rp ∧ Connections rp !! i = Some rconn
    ∧ reciprocal conn rconn
    ∧ connm !! (rpid, Descriptor rconn, pid, Descriptor conn) = None
    ∧ k = (pid, Descriptor conn, rpid, Descriptor rconn)
    ∧ c = peer_connection pid p conn rpid rp rconn.

(** What the loops over the candidates of [conn] keep true of the map
    they started from. *)
Definition within (pt : processTable) (pid : Pid) (p : process) (conn : Connection)
    (m : gmap Z (list nat)) (connm m' : connmap) : Prop :=
  (∀ k c, m' !! k = Some c →
          connm !! k = Some c ∨ (connm !! k = None ∧ accepted pt pid p conn m connm k c))
  ∧ (∀ k c, connm !! k = Some c → m' !! k = Some c)
  ∧ (∀ k, k.1.1.1 ≠ pid → m' !! k = connm !! k).

(** The reciprocal condition in the words of the specification: the
    candidate's type equals this descriptor's type, the candidate's peer
    string equals this descriptor's local string, and either the
    candidate's self string equals this descriptor's peer string, or
    the candidate's self string is empty and the transport is
    shared-memory or unix-domain. *)
Definition reciprocal_as_specified (conn rconn : Connection) : bool :=
  String.eqb (Type_ rconn) (Type_ conn)
  && String.eqb (Peer rconn) (Self conn)
  && (String.eqb (Self rconn) (Peer conn)
      || String.eqb (Self rconn) ""
         && (String.eqb (Type_ conn) "PSXSHM" || String.eqb (Type_ conn) "unix")).

(** [c] connects descriptor [a] of process [P] and descriptor [b] of
    process [Q], in either direction. *)
Definition joins (P a Q b : Z) (c : connection) : bool :=
  bool_decide (key_of c = (P, a, Q, b)) || bool_decide (key_of c = (Q, b, P, a)).

(** A process id that is neither the kernel's 0 nor a negative or data
    sentinel. *)
Definition ordinary (pid : Pid) : Prop := 0 < pid < MaxInt32.

(** The table whose entries are those of [order]. *)
Definition table_of (order : list (Pid * option process)) : processTable :=
  list_to_map order.

(** No entry of [pt] is nil and every process's parent id is a key of
    [pt] with a process behind it. *)
Definition entry_closed (pt : processTable) (op : option process) : bool :=
  match op with
  | Some p => bool_decide (is_Some (at_pid pt (Ppid p)))
  | None => false
  end.

Definition closed (pt : processTable) : bool :=
  bool_decide (map_Forall (λ _ op, entry_closed pt op) pt).

End Main.

(** * Package plugin: the node graph *)

Module Plugin.

Definition MaxInt32 : Z := 2147483647.

(** The types of package process that [Nodegraph] reads. *)
Record Endpoint := {
  Name : string;
  Pid : Z;
}.

Record Connection := {
  Type_ : string;
  Self : Endpoint;
  Peer : Endpoint;
}.

Record Process := {
  IdName : string;
  Ppid : Z;
  Executable : string;
  Connections : list Connection;
}.

(** [process.Table], a [map[Pid]*Process]. *)
Abbreviation Table := (gmap Z (option Process)).

(** The five arcs drawn around a node. *)
Inductive arc : Set := hostArc | procArc | dataArc | sockArc | kernArc.

(** The rows of [nm] and [em]: slices of [any] in the source, with the
    fields at fixed positions. *)
Record node := {
  ntime : Z;
  nid : Z;
  ntitle : string;
  nsubtitle : string;
  nmain : string;
  nsecondary : string;
  narc : arc;
}.

Record edge := {
  etime : Z;
  eid : string;
  esource : Z;
  etarget : Z;
  emain : string;
  esecondary : string;
  elabel : string;
}.

Abbreviation nodemap := (gmap Z node).
Abbreviation edgemap := (gmap string edge).

(** What the surroundings supply: the clock, the name service, the URL
    escaping and the printing of a process id. *)
Record env := {
  timestamp : Z;
  Hostname : string → string;
  QueryEscape : string → string;
  Pid_String : Z → string;
}.

(** [tb[pid]], nil when absent. *)
Definition at_pid (tb : Table) (pid : Z) : option Process := mjoin (tb !! pid).

(** [fmt.Sprintf("%s[%d]", name, pid)]. *)
Definition bracket (name : string) (pid : Z) : string :=
  name +:+ "[" +:+ Itoa pid +:+ "]".

(** The comma-ok lookup succeeds for a key that holds nil, and the
    field access then panics. *)
Definition longname (tb : Table) (pid : Z) : result string :=
  match tb !! pid with
  | Some op =>
      p ← deref op;
      let name := if String.eqb (Executable p) "" then IdName p else Executable p in
      Ok (bracket name pid)
  | None => Ok ""
  end.

Definition shortname (tb : Table) (pid : Z) : result string :=
  match tb !! pid with
  | Some op => p ← deref op; Ok (bracket (IdName p) pid)
  | None => Ok ""
  end.

(** [strconv.Atoi] returns no error: an optional sign, then one or more
    decimal digits that spell a 64-bit integer. *)
Definition digits_value (ds : list ascii) : Z :=
  foldl (λ n c, n * 10 + (Z.of_nat (nat_of_ascii c) - 48)) 0 ds.

Definition Atoi_ok (s : string) : bool :=
  let b := net.bytes s in
  let '(neg, ds) :=
    match b with
    | "+"%char :: r => (false, r)
    | "-"%char :: r => (true, r)
    | _ => (false, b)
    end in
  negb (bool_decide (ds = [])) && forallb net.is_digit ds
  && (digits_value ds <=? (if neg then 9223372036854775808 else 9223372036854775807)).

(** [s[0:2]]. *)
Definition prefix2 (s : string) : result string :=
  match net.bytes s with
  | a :: b :: _ => Ok (net.str [a; b])
  | _ => Panic SliceBounds
  end.

(** [fmt.Sprintf("%d -> %d", a, b)]. *)
Definition edge_id (a b : Z) : string := Itoa a +:+ " -> " +:+ Itoa b.

(** [fmt.Sprintf("%s:%s ‑> %s", t, a, b)], with the non-breaking hyphen
    of the source. *)
Definition transport_line (t a b : string) : string :=
  t +:+ ":" +:+ a +:+ " ‑> " +:+ b.

Definition newline : string := String (ascii_of_nat 10) "".

(** The test that skips a connection. *)
Definition ignored (pid : Z) (conn : Connection) : bool :=
  (Pid (Self conn) =? 0) || (Pid (Peer conn) =? 0)
  || (Pid (Self conn) =? 1) || (Pid (Peer conn) =? 1)
  || (Pid (Self conn) =? Pid (Peer conn))
  || (pid =? 0) && (MaxInt32 <=? Pid (Peer conn)).

Section assemble.
Variable e : env.
Variable tb : Table.
Variable pid : Z.

Definition process_node (q : Z) : result node :=
  p ← deref (at_pid tb q);
  ln ← longname tb q;
  lp ← longname tb (Ppid p);
  Ok {| ntime := timestamp e; nid := q; ntitle := IdName p;
        nsubtitle := Pid_String e q; nmain := ln; nsecondary := lp;
        narc := procArc |}.

(** The branch for a peer that is a remote host or a listener. *)
Definition host_step (nm : nodemap) (em : edgemap) (conn : Connection)
  : result (nodemap * edgemap) :=
  let '(host, port, _) := net.SplitHostPort (Name (Peer conn)) in
  arc ← (if Atoi_ok (Name (Self conn)) then Ok sockArc
         else pre ← prefix2 (Name (Self conn));
              Ok (if String.eqb pre "0x" then sockArc else hostArc));
  let nm := <[Pid (Peer conn) :=
               {| ntime := timestamp e; nid := Pid (Peer conn);
                  ntitle := Type_ conn +:+ ":" +:+ port;
                  nsubtitle := Hostname e host; nmain := host;
                  nsecondary := Hostname e host; narc := arc |}]> nm in
  let id := edge_id (Pid (Peer conn)) (Pid (Self conn)) in
  sn ← shortname tb (Pid (Self conn));
  Ok (nm, <[id := {| etime := timestamp e; eid := id;
                     esource := Pid (Peer conn); etarget := Pid (Self conn);
                     emain := host; esecondary := sn;
                     elabel := transport_line (Type_ conn) (Name (Peer conn))
                                 (Name (Self conn)) |}]> em).

(** The branch for a peer that is data. *)
Definition data_step (nm : nodemap) (em : edgemap) (conn : Connection)
  : result (nodemap * edgemap) :=
  let peer := Type_ conn +:+ ":" +:+ Name (Peer conn) in
  let arc := if negb (String.eqb (Type_ conn) "REG")
                && negb (String.eqb (Type_ conn) "DIR")
             then kernArc else dataArc in
  sn ← shortname tb (Pid (Self conn));
  let nm := <[Pid (Peer conn) :=
               {| ntime := timestamp e; nid := Pid (Peer conn);
                  ntitle := Type_ conn; nsubtitle := Name (Peer conn);
                  nmain := peer; nsecondary := sn; narc := arc |}]> nm in
  let id := edge_id (Pid (Self conn)) (Pid (Peer conn)) in
  match em !! id with
  | Some _ => Ok (nm, em)
  | None =>
      Ok (nm, <[id := {| etime := timestamp e; eid := id;
                         esource := Pid (Self conn); etarget := Pid (Peer conn);
                         emain := sn; esecondary := QueryEscape e peer;
                         elabel := transport_line (Type_ conn) (Name (Self conn))
                                     (Name (Peer conn)) |}]> em)
  end.

Definition relabel (ed : edge) (line : string) : edge :=
  {| etime := etime ed; eid := eid ed; esource := esource ed;
     etarget := etarget ed; emain := emain ed; esecondary := esecondary ed;
     elabel := elabel ed +:+ newline +:+ line |}.

(** The branch for a peer that is a process. *)
Definition peer_step (nm : nodemap) (em : edgemap) (conn : Connection)
  : result (nodemap * edgemap) :=
  peer ← shortname tb (Pid (Peer conn));
  n ← process_node (Pid (Peer conn));
  let nm := <[Pid (Peer conn) := n]> nm in
  let id := edge_id (Pid (Self conn)) (Pid (Peer conn)) in
  let di := edge_id (Pid (Peer conn)) (Pid (Self conn)) in
  match em !! id with
  | Some ed =>
      Ok (nm, <[id := relabel ed (transport_line (Type_ conn) (Name (Self conn))
                                    (Name (Peer conn)))]> em)
  | None =>
      match em !! di with
      | Some ed =>
          Ok (nm, <[di := relabel ed (transport_line (Type_ conn)
                                        (Name (Peer conn)) (Name (Self conn)))]> em)
      | None =>
          sn ← shortname tb (Pid (Self conn));
          Ok (nm, <[id := {| etime := timestamp e; eid := id;
                             esource := Pid (Self conn);
                             etarget := Pid (Peer conn);
                             emain := sn; esecondary := peer;
                             elabel := sn +:+ " ‑> " +:+ peer +:+ newline
                                       +:+ transport_line (Type_ conn)
                                             (Name (Self conn))
                                             (Name (Peer conn)) |}]> em)
      end
  end.

(** The body of the loop over the connections of the processes. *)
Definition connection_step (st : nodemap * edgemap) (conn : Connection)
  : result (nodemap * edgemap) :=
  if ignored pid conn then Ok st
  else
    n ← process_node (Pid (Self conn));
    let nm := <[Pid (Self conn) := n]> st.1 in
    if Pid (Peer conn) <? 0 then host_step nm st.2 conn
    else if MaxInt32 <=? Pid (Peer conn) then data_step nm st.2 conn
    else peer_step nm st.2 conn.

Definition table_step (st : nodemap * edgemap) (en : Z * option Process)
  : result (nodemap * edgemap) :=
  p ← deref en.2;
  foldM connection_step st (Connections p).

(** The loop over [pt], whose entries come in the order [order]. *)
Definition assemble (order : list (Z * option Process))
  : result (nodemap * edgemap) :=
  foldM table_step (∅, ∅) order.

End assemble.

Definition node_less (a b : node) : bool := nid a <? nid b.

Definition edge_less (a b : edge) : bool :=
  (esource a <? esource b) || (esource a =? esource b) && (etarget a <? etarget b).

(** [backend.DataResponse]: the frames and the error. *)
Record DataResponse := {
  Frames : option (list node * list edge);
  Error : option fault;
}.

(** From the loop over [pt] to the end of the function.  [tb] is the
    table after [process.Connections], [order] the entries of [pt], and
    [pid] the queried process after the reset to 0 of an unknown one. *)
Definition Nodegraph_body (e : env) (tb : Table) (pid : Z)
    (order : list (Z * option Process)) : result (list node * list edge) :=
  st ← assemble e tb pid order;
  Ok (sort_Slice node_less (map_to_list st.1).*2,
      sort_Slice edge_less (map_to_list st.2).*2).

(** The deferred function recovers from a panic and stores it as the
    error of the response. *)
Definition Nodegraph (e : env) (tb : Table) (pid : Z)
    (order : list (Z * option Process)) : DataResponse :=
  match Nodegraph_body e tb pid order with
  | Ok frames => {| Frames := Some frames; Error := None |}
  | Panic f => {| Frames := None; Error := Some f |}
  end.

(** A process node: an id that is neither negative (hosts) nor at or
    above the data sentinel. *)
Definition process_id (q : Z) : Prop := 0 ≤ q < MaxInt32.

(** What one iteration may do to the edge map: leave it, add the edge
    of a host, add the edge of a data node, extend the label of an edge,
    or add the edge of a pair of nodes that has none in either
    direction. *)
Inductive edge_write (em : edgemap) : edgemap → Prop :=
  | edge_keep : edge_write em em
  | edge_host peer self ed :
      peer < 0 → eid ed = edge_id peer self →
      edge_write em (<[edge_id peer self := ed]> em)
  | edge_data self peer ed :
      MaxInt32 ≤ peer → eid ed = edge_id self peer →
      edge_write em (<[edge_id self peer := ed]> em)
  | edge_relabel id ed line :
      em !! id = Some ed →
      edge_write em (<[id := relabel ed line]> em)
  | edge_new self peer ed :
      em !! edge_id self peer = None → em !! edge_id peer self = None →
      eid ed = edge_id self peer →
      edge_write em (<[edge_id self peer := ed]> em).

End Plugin.

(** ** Sample hosts and process tables *)

Module Sample.
Import Main.

(** A host that knows itself as localhost and 192.0.2.7 on en0. *)
Definition host0 : host :=
  {| parseIPv6 := λ _, [];
     ipv6String := λ _, "";
     localIps := {["localhost"; "192.0.2.7"]};
     interfaces := {["192.0.2.7" := "en0"]} |}.

Definition descriptor (fd : Z) (t self peer : string) : Connection :=
  {| Descriptor := fd; Type_ := t; Name := self; Self := self; Peer := peer |}.

Definition proc (ppid : Pid) (exec : string) (conns : list Connection) : process :=
  {| Ppid := ppid; Exec := exec; Connections := conns |}.

Definition kernel_task : process := proc 0 "kernel_task" [].
Definition launchd : process := proc 0 "/sbin/launchd" [].

(** A process tree 0 - 1 - 10 - 50 without any descriptor. *)
Definition sshd : process := proc 1 "/usr/sbin/sshd" [].
Definition bash : process := proc 10 "/bin/bash" [].

Definition family : list (Pid * option process) :=
  [(0, Some kernel_task); (1, Some launchd); (10, Some sshd); (50, Some bash)].

(** The same processes 10 and 50 in a table that lacks process 1. *)
Definition orphans : list (Pid * option process) :=
  [(10, Some sshd); (50, Some bash)].

(** Two processes at the two ends of a pipe. *)
Definition pipe_a : Connection := descriptor 3 "PIPE" "0xa" "0xb".
Definition pipe_b : Connection := descriptor 4 "PIPE" "0xb" "0xa".
Definition writer : process := proc 1 "/bin/cat" [pipe_a].
Definition reader : process := proc 1 "/usr/bin/wc" [pipe_b].

Definition piped : list (Pid * option process) :=
  [(0, Some kernel_task); (1, Some launchd); (10, Some writer); (20, Some reader)].

Definition piped_reversed : list (Pid * option process) :=
  [(20, Some reader); (10, Some writer); (1, Some launchd); (0, Some kernel_task)].

(** A unix socket 0xb with a peer-less end in process 20 and a connected
    end in process 30, and process 10 connected to it. *)
Definition unix_a : Connection := descriptor 3 "unix" "0xa" "0xb".
Definition unix_b : Connection := descriptor 4 "unix" "0xb" "".
Definition unix_c : Connection := descriptor 5 "unix" "0xb" "0xa".

Definition client : process := proc 1 "/bin/client" [unix_a].
Definition server : process := proc 1 "/bin/server" [unix_b].
Definition worker : process := proc 1 "/bin/worker" [unix_c].

Definition sockets : list (Pid * option process) :=
  [(0, Some kernel_task); (1, Some launchd);
   (10, Some client); (20, Some server); (30, Some worker)].

(** The candidates the index holds for the peer of [unix_a]. *)
Definition unix_a_candidates : gmap Z (list nat) :=
  {[20 := [0%nat]; 30 := [0%nat]]}.

(** A process with one named unix socket. *)
Definition named_socket : list (Pid * option process) :=
  [(10, Some (proc 10 "/usr/sbin/syslogd"
                [descriptor 5 "unix" "/var/run/syslog" ""]))].

(** TCP descriptors: a listener, a peer on another host, a peer on the
    loopback address and a peer that is no host:port. *)
Definition tcp_listen : Connection := descriptor 3 "TCP" "*:8080 (LISTEN)" "".
Definition tcp_far : Connection := descriptor 4 "TCP" "192.0.2.7:50000" "203.0.113.5:443".
Definition tcp_loop : Connection := descriptor 5 "TCP" "127.0.0.1:50001" "127.0.0.1:8080".
Definition tcp_odd : Connection := descriptor 6 "TCP" "192.0.2.7:50002" "elsewhere".
Definition browser : process :=
  proc 1 "/usr/bin/browser" [tcp_listen; tcp_far; tcp_loop; tcp_odd].

Definition networked : list (Pid * option process) :=
  [(0, Some kernel_task); (1, Some launchd); (10, Some browser)].

End Sample.

Module PluginSample.
Import Plugin.

Definition env0 : env :=
  {| timestamp := 0; Hostname := λ host, host; QueryEscape := λ s, s;
     Pid_String := Itoa |}.

Definition link (t : string) (self : string) (spid : Z) (peer : string) (ppid : Z)
  : Connection :=
  {| Type_ := t; Self := {| Name := self; Pid := spid |};
     Peer := {| Name := peer; Pid := ppid |} |}.

(** Process 10 reaches process 20 over a pipe and a unix socket, and
    process 20 sees the pipe from its side. *)
Definition cat : Process :=
  {| IdName := "cat"; Ppid := 1; Executable := "/bin/cat";
     Connections := [link "PIPE" "0xa" 10 "0xb" 20; link "unix" "0xc" 10 "0xd" 20] |}.
Definition wc : Process :=
  {| IdName := "wc"; Ppid := 1; Executable := "/usr/bin/wc";
     Connections := [link "PIPE" "0xb" 20 "0xa" 10] |}.
Definition launchd : Process :=
  {| IdName := "launchd"; Ppid := 0; Executable := "/sbin/launchd";
     Connections := [] |}.

Definition pipeline : list (Z * option Process) :=
  [(10, Some cat); (20, Some wc)].
Definition pipeline_table : Table :=
  list_to_map [(1, Some launchd); (10, Some cat); (20, Some wc)].

Definition pipeline_frames : list node * list edge :=
  default ([], []) (Frames (Nodegraph env0 pipeline_table 10 pipeline)).


(** A family table with a nil entry for process 20. *)
Definition torn : list (Z * option Process) := [(10, Some cat); (20, None)].

End PluginSample.

(** * When the assembly of the node graph meets a fault *)

Module Assembly.
Import Plugin.





End Assembly.

(** ** Sample tables that lack a parent, and descriptors on sentinel numbers *)

Module Sample3.
Import Main.

(** The two ends of the pipe of [Sample.piped] without their parent. *)
Definition piped_orphans : list (Pid * option process) :=
  [(10, Some Sample.writer); (20, Some Sample.reader)].

(** The process of [Sample.networked] without its parent. *)
Definition networked_orphan : list (Pid * option process) :=
  [(10, Some Sample.browser)].

(** Process 0 and process 7 share a unix socket pair on descriptor 0, and
    process 7 has a kernel control socket on descriptor 0 as well. *)
Definition cross_a : Connection := Sample.descriptor 0 "unix" "0xa" "0xb".
Definition cross_b : Connection := Sample.descriptor 0 "unix" "0xb" "0xa".
Definition control : Connection :=
  {| Descriptor := 0; Type_ := "systm"; Name := "com.apple.netsrc";
     Self := "0xc"; Peer := "kernel" |}.
Definition kernel0 : process := Sample.proc 0 "kernel_task" [cross_b].
Definition daemon7 : process := Sample.proc 0 "/usr/sbin/daemon" [cross_a; control].

Definition crossed : list (Pid * option process) :=
  [(0, Some kernel0); (7, Some daemon7)].

End Sample3.

(** * Loops that may panic *)

Section foldM_facts.
Context {A S : Type} (f : S → A → result S).

Lemma bind_Ok {B C} (r : result B) (k : B → result C) c :
  (r ≫= k) = Ok c ↔ ∃ b, r = Ok b ∧ k b = Ok c.
Proof. destruct r; simpl; split; [eauto | by intros (? & [= ->] & ?) | done | by intros (? & ? & ?)]. Qed.

Lemma foldM_cons_Ok s x l sf :
  foldM f s (x :: l) = Ok sf ↔ ∃ s1, f s x = Ok s1 ∧ foldM f s1 l = Ok sf.
Proof. apply bind_Ok. Qed.

Lemma foldM_app_Ok s l1 l2 sf :
  foldM f s (l1 ++ l2) = Ok sf ↔ ∃ s1, foldM f s l1 = Ok s1 ∧ foldM f s1 l2 = Ok sf.
Proof.
  revert s. induction l1 as [|x l1 IH]; intros s.
  - simpl. split; [eauto | by intros (? & [= ->] & ?)].
  - rewrite <-app_comm_cons, foldM_cons_Ok. split.
    + intros (s1 & Hx & (s2 & ? & ?)%IH). exists s2. split; [|done].
      apply foldM_cons_Ok. eauto.
    + intros (s2 & (s1 & ? & ?)%foldM_cons_Ok & ?). exists s1. split; [done|].
      apply IH. eauto.
Qed.

(** Splitting a completed loop at one of its iterations. *)
Lemma foldM_split s l1 x l2 sf :
  foldM f s (l1 ++ x :: l2) = Ok sf →
  ∃ s1 s2, foldM f s l1 = Ok s1 ∧ f s1 x = Ok s2 ∧ foldM f s2 l2 = Ok sf.
Proof.
  intros (s1 & ? & (s2 & ? & ?)%foldM_cons_Ok)%foldM_app_Ok. eauto.
Qed.

(** A property kept by every iteration is kept by the loop. *)
Lemma foldM_invariant (I : S → Prop) l s sf :
  (∀ s x s', x ∈ l → I s → f s x = Ok s' → I s') →
  I s → foldM f s l = Ok sf → I sf.
Proof.
  revert s. induction l as [|x l IH]; intros s Hstep Hs.
  - by intros [= <-].
  - intros (s1 & Hx & Hl)%foldM_cons_Ok.
    apply (IH s1); [| |done].
    + intros s2 y s3 Hy ??. eapply Hstep; [by right|done..].
    + eapply Hstep; [by left|done..].
Qed.

(** The loop completes when every iteration does. *)
Lemma foldM_total (I : S → Prop) l s :
  (∀ s x, x ∈ l → I s → ∃ s', f s x = Ok s' ∧ I s') →
  I s → ∃ sf, foldM f s l = Ok sf ∧ I sf.
Proof.
  revert s. induction l as [|x l IH]; intros s Hstep Hs; [by eexists|].
  destruct (Hstep s x) as (s1 & Hx & Hs1); [by left|done|].
  destruct (IH s1) as (sf & ? & ?); [|done|].
  - intros ????. apply Hstep; [by right|done].
  - exists sf. split; [|done]. apply foldM_cons_Ok. eauto.
Qed.

(** An iteration that panics in every state makes the loop panic. *)
Lemma foldM_panics l x s :
  x ∈ l → (∀ s, ∃ e, f s x = Panic e) → ∃ e, foldM f s l = Panic e.
Proof.
  intros Hx Hp. revert s. induction l as [|y l IH]; intros s; [by inv Hx|].
  simpl. inv Hx.
  - destruct (Hp s) as [e ->]. by exists e.
  - destruct (f s y) as [s1|e]; simpl; [by apply IH | by exists e].
Qed.
End foldM_facts.

(** * [sort.Slice] on distinct keys *)

Section sort_facts.
Context {A : Type} (less : A → A → bool).

Lemma insert_by_Permutation x l : insert_by less x l ≡ₚ x :: l.
Proof.
  induction l as [|y l IH]; simpl; [done|].
  destruct (less y x); [|done]. by rewrite IH, Permutation_swap.
Qed.

Lemma sort_Slice_Permutation l : sort_Slice less l ≡ₚ l.
Proof.
  induction l as [|x l IH]; simpl; [done|].
  by rewrite insert_by_Permutation, IH.
Qed.

Lemma elem_of_sort_Slice x l : x ∈ sort_Slice less l ↔ x ∈ l.
Proof. by rewrite sort_Slice_Permutation. Qed.

Lemma NoDup_sort_Slice l : NoDup l → NoDup (sort_Slice less l).
Proof. by rewrite sort_Slice_Permutation. Qed.

Hypothesis less_trans : ∀ x y z, less x y → less y z → less x z.
Hypothesis less_irrefl : ∀ x, ¬ less x x.
Hypothesis less_connected : ∀ x y, ¬ less x y → ¬ less y x → x = y.

Lemma insert_by_sorted x l :
  x ∉ l → StronglySorted less l → StronglySorted less (insert_by less x l).
Proof.
  intros Hx Hl. induction Hl as [|y l Hl IH Hy]; simpl.
  { repeat constructor. }
  apply not_elem_of_cons in Hx as [Hxy Hx].
  destruct (less y x) eqn:Hyx.
  - constructor; [by apply IH|].
    apply Forall_forall. intros z Hz.
    rewrite insert_by_Permutation in Hz. rewrite Forall_forall in Hy.
    inv Hz; [by rewrite Hyx|by apply Hy].
  - assert (less x y) as Hlt.
    { destruct (less x y) eqn:E; [done|]. destruct Hxy.
      apply less_connected; rewrite ?E, ?Hyx; simpl; tauto. }
    constructor; [by constructor|].
    constructor; [done|]. eapply Forall_impl; [done|]. eauto.
Qed.

Lemma sort_Slice_sorted l : NoDup l → StronglySorted less (sort_Slice less l).
Proof.
  induction 1 as [|x l Hx Hl IH]; simpl; [constructor|].
  apply insert_by_sorted; [by rewrite elem_of_sort_Slice|done].
Qed.

(** The result does not depend on the order the keys come in. *)
Lemma sort_Slice_unique l1 l2 :
  NoDup l1 → l1 ≡ₚ l2 → sort_Slice less l1 = sort_Slice less l2.
Proof.
  intros Hl1 Hp. assert (NoDup l2) by by rewrite <-Hp.
  apply (StronglySorted_unique_strong (λ x y, less x y)).
  - intros x y _ _ Hxy Hyx. destruct (less_irrefl x). eauto.
  - by apply sort_Slice_sorted.
  - by apply sort_Slice_sorted.
  - by rewrite !sort_Slice_Permutation.
Qed.
End sort_facts.

(** * Printed integers *)

Section printed.

Lemma no_space_uint d : no_space (NilEmpty.string_of_uint d).
Proof. induction d; simpl; (split; [discriminate|done]) || done. Qed.

Lemma no_space_Itoa n : no_space (Itoa n).
Proof.
  unfold Itoa, NilZero.string_of_int, NilZero.string_of_uint.
  destruct (Z.to_int n) as [d|d]; destruct d; simpl;
    repeat split; try discriminate; apply no_space_uint.
Qed.

Lemma append_space_inj s1 s2 t1 t2 :
  no_space s1 → no_space s2 →
  s1 +:+ String " " t1 = s2 +:+ String " " t2 → s1 = s2 ∧ t1 = t2.
Proof.
  revert s2. induction s1 as [|c s1 IH]; intros [|c2 s2]; simpl.
  - by intros _ _ [= ->].
  - intros _ [Hc _] [= <- _]. done.
  - intros [Hc _] _ [= -> _]. done.
  - intros [_ H1] [_ H2] [= -> Heq]. destruct (IH s2 H1 H2 Heq) as [-> ->]. done.
Qed.

Lemma Itoa_inj a b : Itoa a = Itoa b → a = b.
Proof.
  unfold Itoa. intros Heq. apply DecimalZ.to_int_inj.
  assert (∀ z, NilZero.int_of_string (NilZero.string_of_int (Z.to_int z))
               = Some (Z.to_int z)) as Hisi.
  { intros z. apply NilZero.isi; destruct z; simpl; try discriminate;
      intros [= Hnil]; by apply Unsigned.to_uint_nonnil in Hnil. }
  pose proof (Hisi a) as Ha. rewrite Heq, Hisi in Ha. by injection Ha.
Qed.

(** The edge id determines its two ends. *)
Lemma edge_id_inj a b c d :
  Plugin.edge_id a b = Plugin.edge_id c d → a = c ∧ b = d.
Proof.
  unfold Plugin.edge_id. simpl. intros Heq.
  apply append_space_inj in Heq as [Ha Hb]; [|apply no_space_Itoa..].
  injection Hb as Hb. by apply Itoa_inj in Ha, Hb.
Qed.

End printed.

Import Main.

(** * The endpoint index *)

Section index_facts.

Lemma transport_cases t :
  transport t → t = "FIFO" ∨ t = "PIPE" ∨ t = "TCP" ∨ t = "UDP" ∨ t = "unix".
Proof.
  unfold transport. rewrite bool_decide_spec, !elem_of_cons, elem_of_nil. tauto.
Qed.

(** The string key determines the type and the endpoint. *)
Lemma epkey_inj t1 s1 t2 s2 :
  transport t1 → transport t2 → epkey t1 s1 = epkey t2 s2 → t1 = t2 ∧ s1 = s2.
Proof.
  intros H1%transport_cases H2%transport_cases. unfold epkey.
  destruct H1 as [->|[->|[->|[->| ->]]]], H2 as [->|[->|[->|[->| ->]]]];
    simpl; intros ?; by simplify_eq.
Qed.

Lemma indexed_spec conn :
  indexed conn ↔ Self conn ≠ "" ∧ transport (Type_ conn).
Proof.
  unfold indexed. rewrite andb_True, negb_True.
  destruct (String.eqb_spec (Self conn) ""); simpl; naive_solver.
Qed.

Lemma epm_add_skip pid epm i conn :
  ¬ indexed conn → epm_add pid epm (i, conn) = epm.
Proof.
  rewrite indexed_spec. unfold epm_add.
  destruct (String.eqb_spec (Self conn) ""); [done|].
  destruct (transport (Type_ conn)); [|done]. naive_solver.
Qed.

Lemma epm_add_indexed pid epm i conn :
  indexed conn →
  epm_add pid epm (i, conn) =
    let self := epkey (Type_ conn) (Self conn) in
    let m := default ∅ (epm !! self) in
    <[self := <[pid := default [] (m !! pid) ++ [i]]> m]> epm.
Proof.
  rewrite indexed_spec. intros [Hs Ht]. unfold epm_add.
  destruct (String.eqb_spec (Self conn) ""); [done|].
  by destruct (transport (Type_ conn)).
Qed.

Lemma epm_add_occurs pid epm i conn k pid' j :
  occurs (epm_add pid epm (i, conn)) k pid' j ↔
  occurs epm k pid' j
  ∨ (pid' = pid ∧ j = i ∧ indexed conn ∧ k = epkey (Type_ conn) (Self conn)).
Proof.
  destruct (indexed conn) eqn:Hix; cycle 1.
  { rewrite epm_add_skip by by apply Is_true_false. naive_solver. }
  rewrite epm_add_indexed by by apply Is_true_true. cbn zeta.
  set (self := epkey _ _). unfold occurs.
  destruct (decide (k = self)) as [->|Hk]; cycle 1.
  { setoid_rewrite lookup_insert_ne; [|done..]. naive_solver. }
  setoid_rewrite lookup_insert_eq.
  destruct (decide (pid' = pid)) as [->|Hp]; cycle 1.
  { split.
    - intros (m & ix & [= <-] & Hm & ?). rewrite lookup_insert_ne in Hm by done.
      left. destruct (epm !! self) as [m0|]; simpl in Hm; [by eauto|].
      by rewrite lookup_empty in Hm.
    - intros [(m & ix & Hm & ? & ?)|?]; [|naive_solver].
      eexists _, ix. split; [done|]. rewrite lookup_insert_ne by done.
      by rewrite Hm. }
  split.
  - intros (m & ix & [= <-] & Hm & Hj). rewrite lookup_insert_eq in Hm.
    injection Hm as <-. apply elem_of_app in Hj as [Hj|Hj%list_elem_of_singleton].
    + left. destruct (epm !! self) as [m0|] eqn:E; simpl in Hj.
      * destruct (m0 !! pid) as [ix0|] eqn:E0; simpl in Hj; [by eauto|by inv Hj].
      * rewrite lookup_empty in Hj. by inv Hj.
    + by right.
  - intros [(m & ix & Hm & Hp & ?)|(_ & -> & _)].
    + eexists _, _. split; [done|]. rewrite lookup_insert_eq. split; [done|].
      rewrite Hm. simpl. rewrite Hp. simpl. apply elem_of_app. by left.
    + eexists _, _. split; [done|]. rewrite lookup_insert_eq. split; [done|].
      apply elem_of_app. right. by apply list_elem_of_singleton.
Qed.

Lemma epm_add_inhabited pid epm ic :
  inhabited_entries epm → inhabited_entries (epm_add pid epm ic).
Proof.
  destruct ic as [i conn]. intros Hinh.
  destruct (indexed conn) eqn:Hix; cycle 1.
  { by rewrite epm_add_skip by by apply Is_true_false. }
  rewrite epm_add_indexed by by apply Is_true_true. cbn zeta.
  set (self := epkey _ _). intros k m.
  destruct (decide (k = self)) as [->|Hk]; cycle 1.
  { rewrite lookup_insert_ne by done. apply Hinh. }
  rewrite lookup_insert_eq. intros [= <-]. split.
  { apply insert_non_empty. }
  intros pid' ix. destruct (decide (pid' = pid)) as [->|Hp].
  - rewrite lookup_insert_eq. intros [= <-]. by intros [_ ?]%app_eq_nil.
  - rewrite lookup_insert_ne by done.
    destruct (epm !! self) as [m0|] eqn:E; simpl.
    + destruct (Hinh _ _ E) as [_ Hne]. apply Hne.
    + by rewrite lookup_empty.
Qed.

Lemma foldl_epm_add_occurs pid epm (l : list (nat * Connection)) k pid' j :
  occurs (foldl (epm_add pid) epm l) k pid' j ↔
  occurs epm k pid' j
  ∨ (pid' = pid ∧ ∃ conn, (j, conn) ∈ l ∧ indexed conn
                          ∧ k = epkey (Type_ conn) (Self conn)).
Proof.
  revert epm. induction l as [|[i conn] l IH]; intros epm; cbn [foldl].
  { split; [by left|]. by intros [?|(_ & ? & []%elem_of_nil & _)]. }
  rewrite IH, epm_add_occurs. setoid_rewrite elem_of_cons. naive_solver.
Qed.

Lemma foldl_epm_add_inhabited pid epm (l : list (nat * Connection)) :
  inhabited_entries epm → inhabited_entries (foldl (epm_add pid) epm l).
Proof.
  revert epm. induction l as [|ic l IH]; intros epm ?; cbn [foldl]; [done|].
  by apply IH, epm_add_inhabited.
Qed.

Lemma epm_process_occurs epm e epm' k pid j :
  epm_process epm e = Ok epm' →
  occurs epm' k pid j ↔
  occurs epm k pid j
  ∨ (pid = e.1 ∧ ∃ p conn, e.2 = Some p ∧ Connections p !! j = Some conn
                           ∧ indexed conn ∧ k = epkey (Type_ conn) (Self conn)).
Proof.
  unfold epm_process. destruct e as [pid' [p|]]; simpl; [|done].
  intros [= <-]. rewrite foldl_epm_add_occurs.
  setoid_rewrite elem_of_lookup_imap. split.
  - intros [?|(-> & conn & (i & c & [= -> ->] & ?) & ? & ?)]; [by left|].
    right. naive_solver.
  - intros [?|(-> & p' & conn & [= <-] & ? & ? & ?)]; [by left|].
    right. naive_solver.
Qed.

Lemma build_epm_from_occurs order epm epm' k pid j :
  foldM epm_process epm order = Ok epm' →
  occurs epm' k pid j ↔
  occurs epm k pid j
  ∨ ∃ p conn, (pid, Some p) ∈ order ∧ Connections p !! j = Some conn
              ∧ indexed conn ∧ k = epkey (Type_ conn) (Self conn).
Proof.
  revert epm. induction order as [|e order IH]; intros epm.
  { intros [= <-]. split; [by left|].
    by intros [?|(? & ? & []%elem_of_nil & _)]. }
  intros (epm1 & He & Hrest)%foldM_cons_Ok.
  rewrite (IH _ Hrest), (epm_process_occurs _ _ _ _ _ _ He).
  setoid_rewrite elem_of_cons. destruct e as [pid' op]. simpl. naive_solver.
Qed.

Lemma build_epm_from_inhabited order epm epm' :
  foldM epm_process epm order = Ok epm' →
  inhabited_entries epm → inhabited_entries epm'.
Proof.
  intros Hf Hi. revert Hi Hf. apply foldM_invariant.
  intros e [pid [p|]] e' _ He; unfold epm_process; simpl; [|done].
  intros [= <-]. by apply foldl_epm_add_inhabited.
Qed.

Lemma visits_elem_of pt order pid op :
  visits pt order → (pid, op) ∈ order ↔ pt !! pid = Some op.
Proof. intros [Hnd <-]. by apply elem_of_list_to_map. Qed.

Lemma occurs_empty k pid j : ¬ occurs ∅ k pid j.
Proof. intros (m & ix & Hm & _). by rewrite lookup_empty in Hm. Qed.

(** What the index holds after the first loop. *)
Lemma build_epm_occurs pt order epm k pid j :
  visits pt order → build_epm order = Ok epm →
  occurs epm k pid j ↔
  ∃ p conn, pt !! pid = Some (Some p) ∧ Connections p !! j = Some conn
            ∧ indexed conn ∧ k = epkey (Type_ conn) (Self conn).
Proof.
  intros Hv Hb. rewrite (build_epm_from_occurs _ _ _ _ _ _ Hb).
  setoid_rewrite (visits_elem_of _ _ _ _ Hv).
  pose proof (occurs_empty k pid j). naive_solver.
Qed.

Lemma build_epm_inhabited order epm :
  build_epm order = Ok epm → inhabited_entries epm.
Proof.
  intros Hb. apply (build_epm_from_inhabited _ _ _ Hb).
  intros k m. by rewrite lookup_empty.
Qed.

(** The first loop panics only on a nil entry. *)
Lemma build_epm_total order :
  (∀ pid, (pid, None) ∉ order) → ∃ epm, build_epm order = Ok epm.
Proof.
  intros Hnn.
  destruct (foldM_total epm_process (λ _, True) order ∅) as (epm & ? & _);
    [|done|by exists epm].
  intros e [pid [p|]] Hin _; [by eexists|]. by destruct (Hnn pid).
Qed.

Lemma build_epm_nil order pid :
  (pid, None) ∈ order → ∃ f, build_epm order = Panic f.
Proof. intros Hin. apply (foldM_panics _ _ _ _ Hin). intros s. by eexists. Qed.

End index_facts.

(** * The second loop as a sequence of guarded writes *)

Section pass_facts.
Context (h : host) (pt : processTable) (epm : epmap).

Local Abbreviation emits := (emits h pt epm).
Local Abbreviation evolves := (evolves h pt epm).
Local Abbreviation descriptor_step := (descriptor_step h pt epm).
Local Abbreviation process_step := (process_step h pt epm).

Lemma evolves_trans m1 m2 m3 : evolves m1 m2 → evolves m2 m3 → evolves m1 m3.
Proof. induction 1; [done|]. intros. eapply evolves_step; eauto. Qed.

Lemma evolves_write m k c : emits m k c → evolves m (<[k := c]> m).
Proof. intros. eapply evolves_step; [done|]. apply evolves_refl. Qed.

(** Induction over the writes of a pass. *)
Lemma evolves_invariant (I : connmap → Prop) m m' :
  (∀ m k c, I m → emits m k c → I (<[k := c]> m)) →
  evolves m m' → I m → I m'.
Proof. intros Hstep. induction 1; eauto. Qed.

Lemma foldM_evolves {A} (f : connmap → A → result connmap) l m m' :
  (∀ m x m', x ∈ l → f m x = Ok m' → evolves m m') →
  foldM f m l = Ok m' → evolves m m'.
Proof.
  intros Hf. apply (foldM_invariant f (evolves m)); [|apply evolves_refl].
  intros m1 x m2 ? ? ?. eapply evolves_trans; eauto.
Qed.

Lemma known_spec (m : connmap) k : known m k = false ↔ m !! k = None.
Proof.
  unfold known. rewrite bool_decide_eq_false, <-eq_None_not_Some. done.
Qed.

Lemma at_pid_Some pid p : at_pid pt pid = Some p ↔ pt !! pid = Some (Some p).
Proof. unfold at_pid. destruct (pt !! pid) as [[?|]|]; naive_solver. Qed.

Section descriptor.
Context (pid : Pid) (p : process) (conn : Connection).
Hypothesis Hp : pt !! pid = Some (Some p).
Hypothesis Hconn : conn ∈ Connections p.

Lemma candidate_step_evolves m rpid ix i connm connm' :
  transport (Type_ conn) → Peer conn ≠ "" →
  epm !! epkey (Type_ conn) (Peer conn) = Some m →
  m !! rpid = Some ix → i ∈ ix → rpid ≠ pid →
  candidate_step pt pid p conn rpid connm i = Ok connm' →
  evolves connm connm'.
Proof.
  intros Ht Hpeer Hm Hix Hi Hne. unfold candidate_step.
  intros (rp & Hrp & (rconn & Hrc & Hstep)%bind_Ok)%bind_Ok.
  unfold deref in Hrp. destruct (at_pid pt rpid) as [rp'|] eqn:Hat; [|done].
  injection Hrp as ->.
  unfold index in Hrc. destruct (Connections rp !! i) as [rc|] eqn:Hi'; [|done].
  injection Hrc as ->.
  destruct (reciprocal conn rconn) eqn:Hrec; simpl in Hstep.
  2:{ injection Hstep as <-. apply evolves_refl. }
  destruct (known connm _) eqn:Hk1 in Hstep.
  { injection Hstep as <-. apply evolves_refl. }
  destruct (known connm _) eqn:Hk2 in Hstep.
  { injection Hstep as <-. apply evolves_refl. }
  injection Hstep as <-. apply known_spec in Hk1, Hk2.
  apply evolves_write. eapply emits_peer; eauto.
Qed.

Lemma rpid_step_evolves m rpid connm connm' :
  transport (Type_ conn) → Peer conn ≠ "" →
  epm !! epkey (Type_ conn) (Peer conn) = Some m →
  rpid_step pt pid p conn m connm rpid = Ok connm' →
  evolves connm connm'.
Proof.
  intros Ht Hpeer Hm. unfold rpid_step.
  destruct (Z.eqb_spec pid rpid) as [->|Hne].
  { intros [= <-]. apply evolves_refl. }
  destruct (m !! rpid) as [ix|] eqn:Hix; simpl.
  2:{ intros [= <-]. apply evolves_refl. }
  apply foldM_evolves. intros m1 i m2 Hi.
  by apply (candidate_step_evolves m rpid ix).
Qed.

Lemma descriptor_step_evolves connm connm' :
  descriptor_step pid p connm conn = Ok connm' → evolves connm connm'.
Proof.
  unfold Main.descriptor_step.
  destruct (String.eqb_spec (Type_ conn) "NUL").
  { intros [= <-]. apply evolves_refl. }
  destruct (data (Type_ conn)) eqn:Hd.
  { intros [= <-]. apply evolves_write. apply emits_data; [done..|by rewrite Hd]. }
  destruct (String.eqb_spec (Type_ conn) "systm").
  { intros [= <-]. apply evolves_write. by apply emits_kernel. }
  destruct (transport (Type_ conn)) eqn:Ht.
  2:{ intros [= <-]. apply evolves_refl. }
  destruct (String.eqb_spec (Peer conn) "").
  { intros [= <-]. apply evolves_refl. }
  destruct (epm !! epkey (Type_ conn) (Peer conn)) as [m|] eqn:Hm.
  - apply foldM_evolves. intros m1 rpid m2 _.
    apply (rpid_step_evolves m); [by rewrite Ht|done..].
  - destruct (String.eqb_spec (Type_ conn) "TCP"); simpl.
    + destruct (remote h (Peer conn)) eqn:Hr; intros [= <-];
        [|apply evolves_refl].
      apply evolves_write. apply emits_external; [by auto..|by rewrite Hr].
    + destruct (String.eqb_spec (Type_ conn) "UDP"); simpl;
        [|intros [= <-]; apply evolves_refl].
      destruct (remote h (Peer conn)) eqn:Hr; intros [= <-];
        [|apply evolves_refl].
      apply evolves_write. apply emits_external; [by auto..|by rewrite Hr].
Qed.
End descriptor.

Lemma process_step_Ok connm e connm' :
  process_step connm e = Ok connm' ↔
  ∃ p pp, e.2 = Some p ∧ at_pid pt (Ppid p) = Some pp ∧
    foldM (descriptor_step e.1 p)
          (<[(Ppid p, -1, e.1, -1) := parent_connection (Ppid p) pp e.1 p]> connm)
          (Connections p) = Ok connm'.
Proof.
  unfold Main.process_step. rewrite bind_Ok. split.
  - intros (p & Hp & (pp & Hpp & ?)%bind_Ok). exists p, pp.
    destruct e.2; [|done]. destruct (at_pid pt (Ppid p)); [|done].
    by simplify_eq/=.
  - intros (p & pp & -> & Hpp & ?). exists p. split; [done|].
    apply bind_Ok. exists pp. by rewrite Hpp.
Qed.

Lemma process_step_evolves connm e connm' :
  pt !! e.1 = Some e.2 →
  process_step connm e = Ok connm' → evolves connm connm'.
Proof.
  intros He (p & pp & Hp & Hpp & Hfold)%process_step_Ok. rewrite Hp in He.
  eapply evolves_step; [by apply emits_parent|].
  revert Hfold. apply foldM_evolves.
  intros m1 conn m2 Hconn. by apply descriptor_step_evolves.
Qed.

Lemma correlate_from_evolves order connm connm' :
  (∀ e, e ∈ order → pt !! e.1 = Some e.2) →
  foldM process_step connm order = Ok connm' → evolves connm connm'.
Proof.
  intros Ho. apply foldM_evolves. intros m1 e m2 He.
  by apply process_step_evolves, Ho.
Qed.

(** ** What every write preserves *)

(** A recorded key stays recorded. *)
Lemma evolves_known m m' k :
  evolves m m' → is_Some (m !! k) → is_Some (m' !! k).
Proof.
  intros Hev. apply (evolves_invariant (λ m, is_Some (m !! k)) m m'); [|done].
  intros m1 k1 c Hk _. rewrite lookup_insert_is_Some.
  destruct (decide (k1 = k)); auto.
Qed.

Lemma emits_key_of m k c : emits m k c → key_of c = k.
Proof. by destruct 1. Qed.

(** Every connection is stored under the key its endpoints spell. *)
Lemma evolves_key_of m m' :
  evolves m m' →
  (∀ k c, m !! k = Some c → key_of c = k) →
  ∀ k c, m' !! k = Some c → key_of c = k.
Proof.
  intros Hev.
  apply (evolves_invariant (λ m, ∀ k c, m !! k = Some c → key_of c = k) m m');
    [|done].
  intros m1 k1 c1 IH Hem k c. rewrite lookup_insert_Some.
  intros [[<- <-]|[_ ?]]; [by eapply emits_key_of|by apply IH].
Qed.

(** Every stored connection was written by one of the five
    assignments. *)
Lemma evolves_origin m m' :
  evolves m m' →
  ∀ k c, m' !! k = Some c → m !! k = Some c ∨ ∃ m0, emits m0 k c.
Proof.
  intros Hev.
  apply (evolves_invariant
           (λ m', ∀ k c, m' !! k = Some c → m !! k = Some c ∨ ∃ m0, emits m0 k c)
           m m'); [|done|by auto].
  intros m1 k1 c1 IH Hem k c. rewrite lookup_insert_Some.
  intros [[<- <-]|[_ ?]]; [by eauto|by apply IH].
Qed.

End pass_facts.

(** * The ordered result *)

Section order_facts.

Lemma key_less_spec a b : key_less a b ↔ key_lt a b.
Proof.
  destruct a as [[[a0 a1] a2] a3], b as [[[b0 b1] b2] b3]. simpl.
  rewrite Is_true_true, !orb_true_iff, !andb_true_iff, !orb_true_iff,
    !andb_true_iff, !orb_true_iff, !andb_true_iff, !Z.ltb_lt, !Z.eqb_eq. done.
Qed.

Lemma key_less_trans a b c : key_less a b → key_less b c → key_less a c.
Proof.
  rewrite !key_less_spec.
  destruct a as [[[a0 a1] a2] a3], b as [[[b0 b1] b2] b3], c as [[[c0 c1] c2] c3].
  simpl. lia.
Qed.

Lemma key_less_irrefl a : ¬ key_less a a.
Proof. rewrite key_less_spec. destruct a as [[[a0 a1] a2] a3]. simpl. lia. Qed.

Lemma key_less_connected a b : ¬ key_less a b → ¬ key_less b a → a = b.
Proof.
  rewrite !key_less_spec.
  destruct a as [[[a0 a1] a2] a3], b as [[[b0 b1] b2] b3]. simpl.
  intros. repeat f_equal; lia.
Qed.

Lemma sort_keys_sorted (keys : list key) :
  NoDup keys → StronglySorted key_less (sort_Slice key_less keys).
Proof.
  apply sort_Slice_sorted;
    eauto using key_less_trans, key_less_irrefl, key_less_connected.
Qed.

Lemma sort_keys_unique (keys1 keys2 : list key) :
  NoDup keys1 → keys1 ≡ₚ keys2 →
  sort_Slice key_less keys1 = sort_Slice key_less keys2.
Proof.
  apply sort_Slice_unique;
    eauto using key_less_trans, key_less_irrefl, key_less_connected.
Qed.

Lemma enumerates_map_to_list connm : enumerates connm (map_to_list connm).*1.
Proof. by unfold enumerates. Qed.

Lemma enumerates_NoDup connm keys : enumerates connm keys → NoDup keys.
Proof. intros ->. apply NoDup_fst_map_to_list. Qed.

Lemma enumerates_elem_of connm keys k :
  enumerates connm keys → k ∈ keys ↔ is_Some (connm !! k).
Proof.
  intros ->. rewrite list_elem_of_fmap. split.
  - intros ([k' c] & -> & ?%elem_of_map_to_list). by eexists.
  - intros [c ?]. exists (k, c). by rewrite elem_of_map_to_list.
Qed.

Lemma ordered_enumeration connm keys :
  enumerates connm keys →
  ordered keys connm = ordered (map_to_list connm).*1 connm.
Proof.
  intros He. unfold ordered. f_equal.
  apply sort_keys_unique; [by eapply enumerates_NoDup|done].
Qed.

Lemma elem_of_ordered connm c :
  c ∈ ordered (map_to_list connm).*1 connm ↔ ∃ k, connm !! k = Some c.
Proof.
  unfold ordered. rewrite list_elem_of_fmap.
  setoid_rewrite elem_of_sort_Slice.
  setoid_rewrite (enumerates_elem_of connm); [|apply enumerates_map_to_list].
  split.
  - intros (k & -> & [c' Hc]). exists k. simpl. by rewrite Hc.
  - intros [k Hk]. exists k. simpl. rewrite Hk. by eauto.
Qed.

Lemma ordered_key_of connm :
  (∀ k c, connm !! k = Some c → key_of c = k) →
  key_of <$> ordered (map_to_list connm).*1 connm
  = sort_Slice key_less (map_to_list connm).*1.
Proof.
  intros Hk. unfold ordered. rewrite <-list_fmap_compose.
  rewrite <-(list_fmap_id (sort_Slice _ _)) at 2.
  apply Forall_fmap_ext, Forall_forall. intros k Hin.
  apply elem_of_sort_Slice, (enumerates_elem_of connm) in Hin as [c Hc];
    [|apply enumerates_map_to_list].
  simpl. rewrite Hc. simpl. by apply Hk.
Qed.

(** The output is strictly ascending in the sort order. *)
Lemma ordered_sorted connm :
  (∀ k c, connm !! k = Some c → key_of c = k) →
  StronglySorted (λ c1 c2, key_lt (key_of c1) (key_of c2))
                 (ordered (map_to_list connm).*1 connm).
Proof.
  intros Hk.
  pose proof (sort_keys_sorted (map_to_list connm).*1
                (NoDup_fst_map_to_list connm)) as Hs.
  rewrite <-(ordered_key_of _ Hk) in Hs.
  induction (ordered _ connm) as [|c l IH]; [constructor|].
  rewrite fmap_cons in Hs. apply StronglySorted_inv in Hs as [Hs Hall].
  constructor; [by apply IH|].
  rewrite Forall_fmap in Hall. eapply Forall_impl; [done|].
  intros c' ?. by apply key_less_spec.
Qed.

End order_facts.

(** * Completion of a pass *)

Section completion.
Context (h : host) (pt : processTable).

Lemma closed_spec :
  closed pt ↔
  ∀ pid op, pt !! pid = Some op →
    ∃ p pp, op = Some p ∧ at_pid pt (Ppid p) = Some pp.
Proof.
  unfold closed. rewrite bool_decide_spec. unfold map_Forall.
  split; intros Hc pid op Hop; specialize (Hc pid op Hop).
  - destruct op as [p|]; [|done]. simpl in Hc.
    apply bool_decide_spec in Hc as [pp ?]. eauto.
  - destruct Hc as (p & pp & -> & Hpp). simpl.
    apply bool_decide_spec. by eexists.
Qed.

Lemma rpids_elem_of (m : gmap Z (list nat)) rpid :
  rpid ∈ rpids m ↔ is_Some (m !! rpid).
Proof.
  unfold rpids. rewrite elem_of_sort_Slice, list_elem_of_fmap. split.
  - intros ([k ix] & -> & ?%elem_of_map_to_list). by eexists.
  - intros [ix ?]. exists (rpid, ix). by rewrite elem_of_map_to_list.
Qed.

Context (order1 : list (Pid * option process)) (epm : epmap).
Hypothesis Hvisits1 : visits pt order1.
Hypothesis Hepm : build_epm order1 = Ok epm.

(** Every position the index holds is a descriptor of the table. *)
Lemma index_position k m rpid ix i :
  epm !! k = Some m → m !! rpid = Some ix → i ∈ ix →
  ∃ rp rconn, at_pid pt rpid = Some rp ∧ Connections rp !! i = Some rconn
              ∧ indexed rconn ∧ k = epkey (Type_ rconn) (Self rconn).
Proof.
  intros Hm Hix Hi.
  assert (occurs epm k rpid i) as Ho by (by exists m, ix).
  apply (build_epm_occurs pt order1) in Ho as (rp & rconn & ? & ? & ? & ?);
    [|done..].
  exists rp, rconn. by rewrite at_pid_Some.
Qed.

Lemma candidate_step_total pid p conn m rpid ix connm i :
  epm !! epkey (Type_ conn) (Peer conn) = Some m →
  m !! rpid = Some ix → i ∈ ix →
  ∃ connm', candidate_step pt pid p conn rpid connm i = Ok connm'.
Proof.
  intros Hm Hix Hi.
  destruct (index_position _ _ _ _ _ Hm Hix Hi) as (rp & rconn & Hrp & Hrc & _).
  unfold candidate_step. rewrite Hrp. simpl. unfold index. rewrite Hrc. simpl.
  destruct (reciprocal conn rconn); simpl; [|by eexists].
  repeat (destruct (known connm _); [by eexists|]). by eexists.
Qed.

Lemma descriptor_step_total pid p connm conn :
  ∃ connm', descriptor_step h pt epm pid p connm conn = Ok connm'.
Proof.
  unfold descriptor_step.
  repeat match goal with
         | |- ∃ _, Ok _ = Ok _ => by eexists
         | |- ∃ _, (if ?b then _ else _) = _ => destruct b
         end.
  destruct (epm !! epkey (Type_ conn) (Peer conn)) as [m|] eqn:Hm.
  2:{ repeat match goal with
             | |- ∃ _, Ok _ = Ok _ => by eexists
             | |- ∃ _, (if ?b then _ else _) = _ => destruct b
             end. }
  destruct (foldM_total (rpid_step pt pid p conn m) (λ _, True) (rpids m) connm)
    as (connm' & ? & _); [|done|by eexists].
  intros connm1 rpid [ix Hix]%rpids_elem_of _. unfold rpid_step.
  destruct (pid =? rpid); [by eexists|]. rewrite Hix. simpl.
  destruct (foldM_total (candidate_step pt pid p conn rpid) (λ _, True) ix connm1)
    as (connm' & ? & _); [|done|by eexists].
  intros connm2 i Hi _.
  destruct (candidate_step_total pid p conn m rpid ix connm2 i) as [connm' ?];
    by eauto.
Qed.

Lemma process_step_total connm pid p pp :
  at_pid pt (Ppid p) = Some pp →
  ∃ connm', process_step h pt epm connm (pid, Some p) = Ok connm'.
Proof.
  intros Hpp. unfold process_step. simpl. rewrite Hpp. simpl.
  destruct (foldM_total (descriptor_step h pt epm pid p) (λ _, True)
              (Connections p)
              (<[(Ppid p, -1, pid, -1) := parent_connection (Ppid p) pp pid p]> connm))
    as (connm' & ? & _); [|done|by eexists].
  intros connm1 conn _ _.
  destruct (descriptor_step_total pid p connm1 conn) as [connm' ?]. by eauto.
Qed.

Lemma correlate_total order2 :
  visits pt order2 → closed pt → ∃ connm, correlate h pt epm order2 = Ok connm.
Proof.
  intros Hv Hc.
  destruct (foldM_total (process_step h pt epm) (λ _, True) order2 ∅)
    as (connm & ? & _); [|done|by eexists].
  intros connm1 [pid op] Hin%(visits_elem_of pt) _; [|done].
  apply closed_spec in Hin as (p & pp & -> & Hpp); [|done].
  destruct (process_step_total connm1 pid p pp Hpp) as [connm' ?]. by eauto.
Qed.

Lemma correlate_evolves order2 connm :
  visits pt order2 → correlate h pt epm order2 = Ok connm →
  evolves h pt epm ∅ connm.
Proof.
  intros Hv. apply correlate_from_evolves.
  intros [pid op] Hin. by apply (visits_elem_of pt order2).
Qed.

End completion.

Section run.
Context (h : host) (pt : processTable) (order1 order2 : list (Pid * option process)).

Lemma connections_body_Ok conns :
  connections_body h order1 order2 pt = Ok conns ↔
  ∃ epm connm, build_epm order1 = Ok epm ∧ correlate h pt epm order2 = Ok connm
               ∧ conns = ordered (map_to_list connm).*1 connm.
Proof.
  unfold connections_body. rewrite bind_Ok. setoid_rewrite bind_Ok.
  naive_solver.
Qed.

Lemma visits_closed_no_nil order pid :
  visits pt order → closed pt → (pid, None) ∉ order.
Proof.
  intros Hv Hc Hin%(visits_elem_of pt); [|done].
  apply closed_spec in Hin as (? & ? & ? & _); done.
Qed.

(** On a closed table the pass runs to completion: no dereference meets
    nil and no index is out of range. *)
Lemma connections_body_total :
  visits pt order1 → visits pt order2 → closed pt →
  ∃ epm connm,
    build_epm order1 = Ok epm ∧ correlate h pt epm order2 = Ok connm ∧
    connections_body h order1 order2 pt = Ok (ordered (map_to_list connm).*1 connm).
Proof.
  intros Hv1 Hv2 Hc.
  destruct (build_epm_total order1) as [epm Hepm].
  { intros pid. by apply visits_closed_no_nil. }
  destruct (correlate_total h pt order1 epm Hv1 Hepm order2) as [connm Hcor];
    [done..|].
  exists epm, connm. split_and!; [done..|].
  apply connections_body_Ok. eauto.
Qed.

Lemma connections_total :
  visits pt order1 → visits pt order2 → closed pt →
  ∃ epm connm,
    build_epm order1 = Ok epm ∧ correlate h pt epm order2 = Ok connm ∧
    evolves h pt epm ∅ connm ∧
    connections h order1 order2 pt = ordered (map_to_list connm).*1 connm.
Proof.
  intros Hv1 Hv2 Hc.
  destruct (connections_body_total Hv1 Hv2 Hc) as (epm & connm & ? & ? & Hb).
  exists epm, connm. split_and!; [done..| |].
  - by eapply correlate_evolves.
  - unfold connections. by rewrite Hb.
Qed.

(** A connection is in the result exactly if [connm] holds it. *)
Lemma elem_of_connections epm connm c :
  build_epm order1 = Ok epm → correlate h pt epm order2 = Ok connm →
  c ∈ connections h order1 order2 pt ↔ ∃ k, connm !! k = Some c.
Proof.
  intros Hepm Hcor. unfold connections.
  assert (connections_body h order1 order2 pt
          = Ok (ordered (map_to_list connm).*1 connm)) as ->.
  { apply connections_body_Ok. eauto. }
  apply elem_of_ordered.
Qed.

End run.

(** * Panics of a pass *)

Section panics.
Context {A S : Type} (f : S → A → result S).

Lemma foldM_Panic l s e :
  foldM f s l = Panic e → ∃ s' x, x ∈ l ∧ f s' x = Panic e.
Proof.
  revert s. induction l as [|x l IH]; intros s; [done|]. simpl.
  destruct (f s x) as [s1|e1] eqn:Hx; simpl.
  - intros (s' & y & ? & ?)%IH. exists s', y. split; [by right|done].
  - intros [= ->]. exists s, x. split; [by left|done].
Qed.
End panics.

Section pass_panics.
Context (h : host) (pt : processTable).

Lemma build_epm_Panic order e : build_epm order = Panic e → e = NilDereference.
Proof.
  intros (epm & [pid [p|]] & _ & He)%foldM_Panic; unfold epm_process in He;
    simpl in He; congruence.
Qed.

Lemma correlate_Panic order1 order2 epm e :
  visits pt order1 → build_epm order1 = Ok epm →
  correlate h pt epm order2 = Panic e → e = NilDereference.
Proof.
  intros Hv Hepm (connm & [pid op] & _ & He)%foldM_Panic.
  unfold process_step in He. simpl in He.
  destruct op as [p|]; simpl in He; [|congruence].
  destruct (at_pid pt (Ppid p)) as [pp|]; simpl in He; [|congruence].
  apply foldM_Panic in He as (connm1 & conn & _ & He).
  destruct (descriptor_step_total h pt order1 epm Hv Hepm pid p connm1 conn)
    as [connm2 Hok]. congruence.
Qed.

(** A process whose parent id is not a key of the table makes the
    second loop panic, wherever it stands in the order. *)
Lemma correlate_missing_parent epm order pid p :
  (pid, Some p) ∈ order → at_pid pt (Ppid p) = None →
  ∃ e, correlate h pt epm order = Panic e.
Proof.
  intros Hin Hpp. apply (foldM_panics _ _ _ _ Hin). intros connm.
  unfold process_step. simpl. rewrite Hpp. simpl. by eexists.
Qed.

Lemma connections_body_Panic order1 order2 e :
  visits pt order1 →
  connections_body h order1 order2 pt = Panic e → e = NilDereference.
Proof.
  intros Hv. unfold connections_body.
  destruct (build_epm order1) as [epm|e1] eqn:Hepm; simpl.
  - destruct (correlate h pt epm order2) as [connm|e2] eqn:Hcor; simpl; [done|].
    intros [= <-]. by eapply correlate_Panic.
  - intros [= <-]. by eapply build_epm_Panic.
Qed.

End pass_panics.

(** * Reaching one process and one descriptor in a completed pass *)

Section reach.
Context (h : host) (pt : processTable) (epm : epmap).

Lemma correlate_reaches_process order connm pid p :
  visits pt order → correlate h pt epm order = Ok connm →
  pt !! pid = Some (Some p) →
  ∃ connm0 connm1,
    process_step h pt epm connm0 (pid, Some p) = Ok connm1 ∧
    evolves h pt epm connm1 connm.
Proof.
  intros Hv Hcor Hp.
  apply (visits_elem_of pt order) in Hp as Hin; [|done].
  apply list_elem_of_split in Hin as (l1 & l2 & ->).
  apply foldM_split in Hcor as (connm0 & connm1 & _ & Hstep & Hrest).
  exists connm0, connm1. split; [done|].
  revert Hrest. apply correlate_from_evolves.
  intros [pid' op] Hin. apply (visits_elem_of pt (l1 ++ (pid, Some p) :: l2)); [done|].
  apply elem_of_app. right. by right.
Qed.

Lemma process_reaches_parent connm0 connm1 pid p :
  pt !! pid = Some (Some p) →
  process_step h pt epm connm0 (pid, Some p) = Ok connm1 →
  ∃ pp, at_pid pt (Ppid p) = Some pp ∧
    evolves h pt epm
      (<[(Ppid p, -1, pid, -1) := parent_connection (Ppid p) pp pid p]> connm0) connm1.
Proof.
  intros Hp (p' & pp & [= <-] & Hpp & Hfold)%process_step_Ok. simpl in Hfold.
  exists pp. split; [done|]. revert Hfold. apply foldM_evolves.
  intros m1 conn m2 Hconn. by apply descriptor_step_evolves.
Qed.

Lemma process_reaches_descriptor connm0 connm1 pid p conn :
  pt !! pid = Some (Some p) → conn ∈ Connections p →
  process_step h pt epm connm0 (pid, Some p) = Ok connm1 →
  ∃ connmA connmB,
    descriptor_step h pt epm pid p connmA conn = Ok connmB ∧
    evolves h pt epm connmB connm1.
Proof.
  intros Hp Hconn (p' & pp & [= <-] & Hpp & Hfold)%process_step_Ok.
  simpl in Hfold.
  apply list_elem_of_split in Hconn as (l1 & l2 & Hl). rewrite Hl in Hfold.
  apply foldM_split in Hfold as (connmA & connmB & _ & Hstep & Hrest).
  exists connmA, connmB. split; [done|]. revert Hrest. apply foldM_evolves.
  intros m1 conn' m2 Hconn'. apply descriptor_step_evolves; [done|].
  rewrite Hl. apply elem_of_app. right. by right.
Qed.

Lemma correlate_reaches_descriptor order connm pid p conn :
  visits pt order → correlate h pt epm order = Ok connm →
  pt !! pid = Some (Some p) → conn ∈ Connections p →
  ∃ connmA connmB,
    descriptor_step h pt epm pid p connmA conn = Ok connmB ∧
    evolves h pt epm connmB connm.
Proof.
  intros Hv Hcor Hp Hconn.
  destruct (correlate_reaches_process _ _ _ _ Hv Hcor Hp) as (c0 & c1 & Hs & Hev).
  destruct (process_reaches_descriptor _ _ _ _ _ Hp Hconn Hs) as (cA & cB & ? & ?).
  exists cA, cB. split; [done|]. by eapply evolves_trans.
Qed.

(** Once the parent connection of [pid] is stored, it stays. *)
Lemma evolves_parent_stays m m' pid p pp :
  pt !! pid = Some (Some p) → at_pid pt (Ppid p) = Some pp → Ppid p ≠ -1 →
  evolves h pt epm m m' →
  m !! (Ppid p, -1, pid, -1) = Some (parent_connection (Ppid p) pp pid p) →
  m' !! (Ppid p, -1, pid, -1) = Some (parent_connection (Ppid p) pp pid p).
Proof.
  intros Hp Hpp Hne Hev.
  apply (evolves_invariant h pt epm
           (λ m, m !! (Ppid p, -1, pid, -1)
                 = Some (parent_connection (Ppid p) pp pid p)) m m'); [|done].
  clear m m' Hev. intros m k c Hm Hem.
  destruct (decide (k = (Ppid p, -1, pid, -1))) as [->|?];
    [|by rewrite lookup_insert_ne].
  rewrite lookup_insert_eq. f_equal.
  inversion Hem; subst; try done; congruence.
Qed.

End reach.

(** * The branches of the descriptor switch *)

Section switch.
Context (h : host) (pt : processTable) (epm : epmap).

Lemma transport_not_other t :
  transport t → t ≠ "NUL" ∧ data t = false ∧ t ≠ "systm".
Proof.
  intros Ht%transport_cases.
  destruct Ht as [->|[->|[->|[->| ->]]]]; by split_and!.
Qed.

(** The case ["FIFO", "PIPE", "TCP", "UDP", "unix"]. *)
Lemma descriptor_step_transport pid p connm conn :
  transport (Type_ conn) →
  descriptor_step h pt epm pid p connm conn =
    if String.eqb (Peer conn) "" then Ok connm
    else match epm !! epkey (Type_ conn) (Peer conn) with
         | None =>
             if String.eqb (Type_ conn) "TCP" || String.eqb (Type_ conn) "UDP" then
               if remote h (Peer conn)
               then Ok (<[(-1, -1, pid, Descriptor conn)
                          := external_connection pid p conn]> connm)
               else Ok connm
             else Ok connm
         | Some m => foldM (rpid_step pt pid p conn m) connm (rpids m)
         end.
Proof.
  intros Ht. destruct (transport_not_other _ Ht) as (Hnul & Hdata & Hsys).
  unfold descriptor_step. rewrite Hdata.
  destruct (String.eqb_spec (Type_ conn) "NUL"); [done|].
  destruct (String.eqb_spec (Type_ conn) "systm"); [done|].
  by rewrite (Is_true_true_1 _ Ht).
Qed.

Lemma tcp_udp_transport t : t = "TCP" ∨ t = "UDP" → transport t.
Proof. by intros [-> | ->]. Qed.

Lemma descriptor_step_absent pid p connm conn :
  Type_ conn = "TCP" ∨ Type_ conn = "UDP" → Peer conn ≠ "" →
  epm !! epkey (Type_ conn) (Peer conn) = None →
  descriptor_step h pt epm pid p connm conn =
    Ok (if remote h (Peer conn)
        then <[(-1, -1, pid, Descriptor conn) := external_connection pid p conn]> connm
        else connm).
Proof.
  intros Ht Hpeer Hm. rewrite descriptor_step_transport by by apply tcp_udp_transport.
  destruct (String.eqb_spec (Peer conn) ""); [done|]. rewrite Hm.
  assert (String.eqb (Type_ conn) "TCP" || String.eqb (Type_ conn) "UDP" = true) as ->.
  { by destruct Ht as [-> | ->]. }
  by destruct (remote h (Peer conn)).
Qed.

Lemma descriptor_step_listener pid p connm conn :
  transport (Type_ conn) → Peer conn = "" →
  descriptor_step h pt epm pid p connm conn = Ok connm.
Proof. intros Ht Hpeer. rewrite descriptor_step_transport by done. by rewrite Hpeer. Qed.

(** The guard of the external record, spelled out. *)
Lemma remote_spec peername :
  remote h peername ↔
  (let ip := net.ParseIP (parseIPv6 h) (net.SplitHostPort peername).1.1 in
   (net.String (ipv6String h) ip ∉ localIps h)
   ∧ interfaces h !! net.String (ipv6String h) ip = None
   ∧ ¬ net.IsLoopback ip ∧ ¬ net.IsInterfaceLocalMulticast ip
   ∧ ¬ net.IsLinkLocalMulticast ip ∧ ¬ net.IsLinkLocalUnicast ip).
Proof.
  unfold remote. destruct (net.SplitHostPort peername) as [[host port] err].
  cbn zeta. simpl. rewrite negb_True, !orb_True, !bool_decide_spec.
  rewrite eq_None_not_Some. tauto.
Qed.

End switch.

(** * Missing parents *)

(** A process whose parent id is not a key of the table: the pass panics
    on the nil entry and the recovered call returns nil. *)
Lemma missing_parent_panics h pt order1 order2 pid p :
  visits pt order1 → visits pt order2 →
  pt !! pid = Some (Some p) → pt !! Ppid p = None →
  connections_body h order1 order2 pt = Panic NilDereference
  ∧ connections h order1 order2 pt = [].
Proof.
  intros Hv1 Hv2 Hp Hpp.
  assert (∃ e, connections_body h order1 order2 pt = Panic e) as [e He].
  { unfold connections_body. destruct (build_epm order1) as [epm|e]; simpl;
      [|by eexists].
    destruct (correlate_missing_parent h pt epm order2 pid p) as [e ->].
    - by apply (visits_elem_of pt order2 pid (Some p) Hv2).
    - unfold at_pid. by rewrite Hpp.
    - by exists e. }
  unfold connections. rewrite He. split; [|done].
  f_equal. by apply (connections_body_Panic h pt order1 order2).
Qed.

(** C10: when some process of the table has a parent id that is not a key
    of the table, the second loop dereferences the nil entry and panics,
    whatever the visiting orders; the deferred function recovers and
    [connections] returns the empty list. *)
Theorem missing_parent_yields_nil h pt order1 order2 pid p :
  visits pt order1 → visits pt order2 →
  pt !! pid = Some (Some p) → pt !! Ppid p = None →
  connections_body h order1 order2 pt = Panic NilDereference
  ∧ connections h order1 order2 pt = [].
Proof. apply missing_parent_panics. Qed.

Lemma sample_visits_orphans : visits (table_of Sample.orphans) Sample.orphans.
Proof. split; [by apply (bool_decide_unpack _); vm_compute|done]. Defined.

Lemma missing_parent_yields_nil_witness :
  connections_body Sample.host0 Sample.orphans Sample.orphans
    (table_of Sample.orphans) = Panic NilDereference
  ∧ connections Sample.host0 Sample.orphans Sample.orphans
      (table_of Sample.orphans) = [].
Proof.
  apply (missing_parent_yields_nil Sample.host0 (table_of Sample.orphans)
           Sample.orphans Sample.orphans 10 Sample.sshd).
  - apply sample_visits_orphans.
  - apply sample_visits_orphans.
  - vm_compute; reflexivity.
  - vm_compute; reflexivity.
Defined.

(** So a result that is not empty needs every parent id in the table. *)
Corollary nonempty_needs_parents h pt order1 order2 :
  visits pt order1 → visits pt order2 →
  connections h order1 order2 pt ≠ [] →
  ∀ pid p, pt !! pid = Some (Some p) → is_Some (pt !! Ppid p).
Proof.
  intros Hv1 Hv2 Hne pid p Hp.
  destruct (pt !! Ppid p) eqn:Hpp; [by eexists|].
  destruct Hne. by eapply missing_parent_panics.
Qed.

(** * Parent connections *)

Section parents.
Context (h : host) (pt : processTable) (order1 order2 : list (Pid * option process)).
Hypothesis Hvisits1 : visits pt order1.
Hypothesis Hvisits2 : visits pt order2.

Lemma result_key_of epm connm :
  build_epm order1 = Ok epm → correlate h pt epm order2 = Ok connm →
  ∀ k c, connm !! k = Some c → key_of c = k.
Proof.
  intros Hepm Hcor. eapply evolves_key_of; [by eapply correlate_evolves|].
  intros k c. by rewrite lookup_empty.
Qed.

Lemma result_origin epm connm :
  build_epm order1 = Ok epm → correlate h pt epm order2 = Ok connm →
  ∀ k c, connm !! k = Some c → ∃ m0, emits h pt epm m0 k c.
Proof.
  intros Hepm Hcor k c Hc.
  destruct (evolves_origin h pt epm ∅ connm) with (k := k) (c := c)
    as [Hem|?]; [by eapply correlate_evolves|done| |done].
  by rewrite lookup_empty in Hem.
Qed.

Lemma parent_connection_stored epm connm pid p pp :
  build_epm order1 = Ok epm → correlate h pt epm order2 = Ok connm →
  pt !! pid = Some (Some p) → at_pid pt (Ppid p) = Some pp → Ppid p ≠ -1 →
  connm !! (Ppid p, -1, pid, -1) = Some (parent_connection (Ppid p) pp pid p).
Proof.
  intros Hepm Hcor Hp Hpp Hne.
  destruct (correlate_reaches_process h pt epm order2 connm pid p)
    as (connm0 & connm1 & Hstep & Hev1); [done..|].
  destruct (process_reaches_parent h pt epm connm0 connm1 pid p)
    as (pp' & Hpp' & Hev0); [done..|].
  assert (pp' = pp) as -> by congruence.
  eapply evolves_parent_stays; [done..|].
  eapply evolves_parent_stays; [done..|]. by rewrite lookup_insert_eq.
Qed.
End parents.

(** C5 (amended): on a closed table, for every process with a parent id
    other than -1 (no exception for parent 0 or 1), the result holds the
    parent connection from the parent process to the child, and it is the
    only connection under the key (parent, -1, child, -1). *)
Theorem parent_connection_emitted h pt order1 order2 pid p pp :
  visits pt order1 → visits pt order2 → closed pt →
  pt !! pid = Some (Some p) → at_pid pt (Ppid p) = Some pp → Ppid p ≠ -1 →
  parent_connection (Ppid p) pp pid p ∈ connections h order1 order2 pt
  ∧ ∀ c, c ∈ connections h order1 order2 pt →
         key_of c = (Ppid p, -1, pid, -1) →
         c = parent_connection (Ppid p) pp pid p.
Proof.
  intros Hv1 Hv2 Hc Hp Hpp Hne.
  destruct (connections_total h pt order1 order2 Hv1 Hv2 Hc)
    as (epm & connm & Hepm & Hcor & Hev & _).
  pose proof (parent_connection_stored h pt order1 order2 Hv2 epm connm pid p pp
                Hepm Hcor Hp Hpp Hne) as Hstored.
  split.
  - apply (elem_of_connections h pt order1 order2 epm connm); [done..|]. eauto.
  - intros c [k Hk]%(elem_of_connections h pt order1 order2 epm connm) Hkey;
      [|done..].
    rewrite (result_key_of h pt order1 order2 Hv2 epm connm Hepm Hcor k c Hk) in Hkey.
    congruence.
Qed.

Lemma sample_visits_family : visits (table_of Sample.family) Sample.family.
Proof. split; [by apply (bool_decide_unpack _); vm_compute|done]. Defined.

Lemma parent_connection_emitted_witness :
  parent_connection 10 Sample.sshd 50 Sample.bash
    ∈ connections Sample.host0 Sample.family Sample.family (table_of Sample.family)
  ∧ ∀ c, c ∈ connections Sample.host0 Sample.family Sample.family
               (table_of Sample.family) →
         key_of c = (10, -1, 50, -1) →
         c = parent_connection 10 Sample.sshd 50 Sample.bash.
Proof.
  apply (parent_connection_emitted Sample.host0 (table_of Sample.family)
           Sample.family Sample.family 50 Sample.bash Sample.sshd).
  - apply sample_visits_family.
  - apply sample_visits_family.
  - by vm_compute.
  - vm_compute; reflexivity.
  - vm_compute; reflexivity.
  - simpl; lia.
Defined.

(** C5, as stated, fails twice.  Process 10 has the root supervisor 1 as
    its parent and still gets a parent connection 1 -> 10; and in a table
    that holds 50 with parent 10 but not the parent of 10, nothing is
    emitted at all. *)
Lemma parent_connection_counterexample :
  Ppid Sample.sshd = 1
  ∧ parent_connection 1 Sample.launchd 10 Sample.sshd
      ∈ connections Sample.host0 Sample.family Sample.family (table_of Sample.family)
  ∧ table_of Sample.orphans !! 50 = Some (Some Sample.bash)
  ∧ Ppid Sample.bash = 10
  ∧ connections Sample.host0 Sample.orphans Sample.orphans
      (table_of Sample.orphans) = [].
Proof.
  split_and!; try (vm_compute; reflexivity).
  vm_compute. do 2 right. by left.
Qed.

(** * Listeners *)

Lemma transport_not_data t : transport t → ¬ data t.
Proof. intros (_ & Hd & _)%transport_not_other. by apply Is_true_false. Qed.

(** C4: a descriptor of a transport type with an empty peer string makes
    its loop iteration leave the connection map as it is; and when its
    number is not -1 and no other descriptor of its process carries the
    same number, no connection of the result has (process, number) as
    its self endpoint. *)
Theorem listener_discarded h pt order1 order2 pid p conn :
  visits pt order1 → visits pt order2 →
  pt !! pid = Some (Some p) → conn ∈ Connections p →
  transport (Type_ conn) → Peer conn = "" →
  (∀ epm connm, descriptor_step h pt epm pid p connm conn = Ok connm)
  ∧ (Descriptor conn ≠ -1 →
     (∀ conn', conn' ∈ Connections p →
               Descriptor conn' = Descriptor conn → conn' = conn) →
     ∀ c, c ∈ connections h order1 order2 pt →
          ¬ (Main.pid (self c) = pid ∧ fd (self c) = Descriptor conn)).
Proof.
  intros Hv1 Hv2 Hp Hconn Ht Hpeer. split.
  { intros epm connm. by apply descriptor_step_listener. }
  intros Hfd Huniq c Hc [Hcpid Hcfd].
  unfold connections in Hc.
  destruct (connections_body h order1 order2 pt) as [conns|e] eqn:Hbody;
    [|by apply elem_of_nil in Hc].
  apply connections_body_Ok in Hbody as (epm & connm & Hepm & Hcor & ->).
  apply elem_of_ordered in Hc as [k Hk].
  destruct (result_origin h pt order1 order2 Hv2 epm connm Hepm Hcor k c Hk)
    as [m0 Hem].
  inversion Hem; subst; simpl in *; try done.
  - assert (p0 = p) as -> by congruence.
    assert (conn0 = conn) as -> by auto. by eapply transport_not_data.
  - assert (p0 = p) as -> by congruence.
    assert (conn0 = conn) as -> by auto.
    destruct (transport_not_other _ Ht) as (_ & _ & ?). done.
  - assert (p0 = p) as -> by congruence.
    assert (conn0 = conn) as -> by auto. done.
Qed.

Lemma sample_visits_networked : visits (table_of Sample.networked) Sample.networked.
Proof. split; [by apply (bool_decide_unpack _); vm_compute|done]. Defined.

Lemma listener_discarded_witness :
  (∀ epm connm,
     descriptor_step Sample.host0 (table_of Sample.networked) epm 10 Sample.browser
       connm Sample.tcp_listen = Ok connm)
  ∧ (Descriptor Sample.tcp_listen ≠ -1 →
     (∀ conn', conn' ∈ Connections Sample.browser →
               Descriptor conn' = Descriptor Sample.tcp_listen →
               conn' = Sample.tcp_listen) →
     ∀ c, c ∈ connections Sample.host0 Sample.networked Sample.networked
                (table_of Sample.networked) →
          ¬ (Main.pid (self c) = 10 ∧ fd (self c) = Descriptor Sample.tcp_listen)).
Proof.
  apply (listener_discarded Sample.host0 (table_of Sample.networked)
           Sample.networked Sample.networked 10 Sample.browser Sample.tcp_listen).
  - apply sample_visits_networked.
  - apply sample_visits_networked.
  - vm_compute; reflexivity.
  - by left.
  - by vm_compute.
  - reflexivity.
Defined.

(** * External hosts *)

(** The two addresses of the specification: the documentation address is
    remote for a host that does not own it, the loopback address never
    is. *)
Lemma remote_documentation_address h :
  "203.0.113.5" ∉ localIps h → interfaces h !! "203.0.113.5" = None →
  remote h "203.0.113.5:443".
Proof.
  intros ??. apply remote_spec. cbn zeta.
  assert (net.SplitHostPort "203.0.113.5:443" = ("203.0.113.5", "443", false)) as ->
    by (vm_compute; reflexivity).
  cbn [fst snd].
  assert (net.ParseIP (parseIPv6 h) "203.0.113.5" = net.IPv4 203 0 113 5) as ->
    by (vm_compute; reflexivity).
  assert (net.String (ipv6String h) (net.IPv4 203 0 113 5) = "203.0.113.5") as ->
    by (vm_compute; reflexivity).
  split_and!; [done..| | | |]; vm_compute; tauto.
Qed.

Lemma remote_loopback h : ¬ remote h "127.0.0.1:8080".
Proof.
  rewrite remote_spec. cbn zeta.
  assert (net.SplitHostPort "127.0.0.1:8080" = ("127.0.0.1", "8080", false)) as ->
    by (vm_compute; reflexivity).
  cbn [fst snd].
  assert (net.ParseIP (parseIPv6 h) "127.0.0.1" = net.IPv4 127 0 0 1) as ->
    by (vm_compute; reflexivity).
  intros (_ & _ & Hl & _). apply Hl. by vm_compute.
Qed.

Section external_guard.
Context (h : host) (pt : processTable).
Hypothesis Hno_minus_one : pt !! (-1) = None.

(** Without a process -1, what a key (-1, -1, pid, fd) holds was written
    for a tcp or udp descriptor of [pid] that passed the guard. *)
Lemma external_key_guarded epm m0 pid fd c :
  emits h pt epm m0 (-1, -1, pid, fd) c →
  ∃ p conn, pt !! pid = Some (Some p) ∧ conn ∈ Connections p
            ∧ Descriptor conn = fd ∧ c = external_connection pid p conn
            ∧ remote h (Peer conn).
Proof.
  inversion 1; subst; try congruence.
  - match goal with H : at_pid _ _ = Some _ |- _ => apply at_pid_Some in H end.
    congruence.
  - eauto 10.
Qed.
End external_guard.

(** C3 (amended): in a table that holds the parent of each of its
    processes and no process -1, take a tcp or udp descriptor, the only
    one of its process with its number, whose non-empty peer string the
    index does not hold, splits into host and port and has an IP address
    as host.  If the address is not one of the host's own, not loopback
    and not interface-local or link-local, the iteration stores, and the
    result holds, the connection whose self endpoint has process id -1
    and descriptor -1, the peer string as name and the port as command,
    and whose peer endpoint is the owning process and descriptor.  If
    the address is one of the host's own, loopback or interface-local or
    link-local, the iteration changes nothing and the result holds no
    connection from -1/-1 to that process and descriptor; the host of
    the peer 127.0.0.1:8080 is loopback. *)
Theorem external_host_classification h pt order1 order2 epm pid p conn ip :
  visits pt order1 → visits pt order2 → closed pt → pt !! (-1) = None →
  build_epm order1 = Ok epm →
  pt !! pid = Some (Some p) → conn ∈ Connections p →
  (∀ conn', conn' ∈ Connections p → Descriptor conn' = Descriptor conn →
            conn' = conn) →
  Type_ conn = "TCP" ∨ Type_ conn = "UDP" → Peer conn ≠ "" →
  epm !! epkey (Type_ conn) (Peer conn) = None →
  (net.SplitHostPort (Peer conn)).2 = false →
  ip = net.ParseIP (parseIPv6 h) (net.SplitHostPort (Peer conn)).1.1 →
  ip ≠ [] →
  (net.String (ipv6String h) ip ∉ localIps h →
   interfaces h !! net.String (ipv6String h) ip = None →
   net.IsLoopback ip = false → net.IsInterfaceLocalMulticast ip = false →
   net.IsLinkLocalMulticast ip = false → net.IsLinkLocalUnicast ip = false →
   (∀ connm,
      descriptor_step h pt epm pid p connm conn =
        Ok (<[(-1, -1, pid, Descriptor conn) :=
               {| ftype := Type_ conn;
                  cname := Name conn;
                  self := {| Main.pid := -1; fd := -1;
                             command := (net.SplitHostPort (Peer conn)).1.2;
                             name := Peer conn |};
                  peer := {| Main.pid := pid; fd := Descriptor conn;
                             command := Exec p; name := Self conn |} |}]> connm))
   ∧ {| ftype := Type_ conn;
        cname := Name conn;
        self := {| Main.pid := -1; fd := -1;
                   command := (net.SplitHostPort (Peer conn)).1.2;
                   name := Peer conn |};
        peer := {| Main.pid := pid; fd := Descriptor conn;
                   command := Exec p; name := Self conn |} |}
       ∈ connections h order1 order2 pt)
  ∧ (net.String (ipv6String h) ip ∈ localIps h
     ∨ is_Some (interfaces h !! net.String (ipv6String h) ip)
     ∨ net.IsLoopback ip = true ∨ net.IsInterfaceLocalMulticast ip = true
     ∨ net.IsLinkLocalMulticast ip = true ∨ net.IsLinkLocalUnicast ip = true →
     (∀ connm, descriptor_step h pt epm pid p connm conn = Ok connm)
     ∧ ∀ c, c ∈ connections h order1 order2 pt →
            ¬ (Main.pid (self c) = -1 ∧ fd (self c) = -1
               ∧ Main.pid (peer c) = pid ∧ fd (peer c) = Descriptor conn))
  ∧ (Peer conn = "127.0.0.1:8080" → net.IsLoopback ip = true).
Proof.
  intros Hv1 Hv2 Hc Hm1 Hepm Hp Hconn Huniq Ht Hpeer Hm Hsplit Hip Hnil.
  destruct (connections_total h pt order1 order2 Hv1 Hv2 Hc)
    as (epm' & connm & Hepm' & Hcor & Hev & _).
  assert (epm' = epm) as -> by congruence.
  pose proof (remote_spec h (Peer conn)) as Hspec. cbn zeta in Hspec.
  rewrite <- Hip in Hspec.
  assert (∀ k c, connm !! k = Some c → k = (-1, -1, pid, Descriptor conn) →
                 c = external_connection pid p conn ∧ remote h (Peer conn))
    as Hheld.
  { intros k c Hk ->.
    destruct (result_origin h pt order1 order2 Hv2 epm connm Hepm Hcor _ c Hk)
      as [m0 Hem].
    apply external_key_guarded in Hem as (p' & conn' & Hp' & Hin & Hfd & -> & Hr);
      [|done].
    assert (p' = p) as -> by congruence.
    by rewrite (Huniq conn' Hin Hfd) in *. }
  split_and!.
  - intros Hown1 Hown2 Hl1 Hl2 Hl3 Hl4.
    assert (remote h (Peer conn)) as Hr.
    { apply Hspec. rewrite Hl1, Hl2, Hl3, Hl4. split_and!; [done..| | | |]; by intros []. }
    assert (∀ connm0, descriptor_step h pt epm pid p connm0 conn
              = Ok (<[(-1, -1, pid, Descriptor conn)
                      := external_connection pid p conn]> connm0)) as Hstep.
    { intros connm0. rewrite descriptor_step_absent by done.
      by rewrite (Is_true_true_1 _ Hr). }
    split; [exact Hstep|].
    destruct (correlate_reaches_descriptor h pt epm order2 connm pid p conn)
      as (cA & cB & HstepA & HevB); [done..|].
    rewrite Hstep in HstepA. injection HstepA as <-.
    destruct (evolves_known h pt epm _ connm (-1, -1, pid, Descriptor conn) HevB)
      as [c Hk]; [by rewrite lookup_insert_eq|].
    destruct (Hheld _ _ Hk eq_refl) as [-> _].
    apply (elem_of_connections h pt order1 order2 epm connm); eauto.
  - intros Hlocal.
    assert (¬ remote h (Peer conn)) as Hr.
    { rewrite Hspec. intros (H1 & H2 & H3 & H4 & H5 & H6).
      destruct Hlocal as [?|[Hi|[Hl|[Hl|[Hl|Hl]]]]]; [done| |rewrite Hl in *; auto..].
      rewrite H2 in Hi. by destruct Hi. }
    split.
    + intros connm0. rewrite descriptor_step_absent by done.
      by destruct (remote h (Peer conn)).
    + intros c [k Hk]%(elem_of_connections h pt order1 order2 epm connm)
        (H1 & H2 & H3 & H4); [|done..].
      pose proof (result_key_of h pt order1 order2 Hv2 epm connm Hepm Hcor k c Hk)
        as Hkey.
      unfold key_of in Hkey. rewrite H1, H2, H3, H4 in Hkey.
      by destruct (Hheld _ _ Hk (eq_sym Hkey)) as [_ ?].
  - intros Hp8080. rewrite Hip, Hp8080. by vm_compute.
Qed.

Lemma external_host_classification_witness :
  ("203.0.113.5" ∉ localIps Sample.host0 →
   interfaces Sample.host0 !! "203.0.113.5" = None →
   net.IsLoopback (net.IPv4 203 0 113 5) = false →
   net.IsInterfaceLocalMulticast (net.IPv4 203 0 113 5) = false →
   net.IsLinkLocalMulticast (net.IPv4 203 0 113 5) = false →
   net.IsLinkLocalUnicast (net.IPv4 203 0 113 5) = false →
   (∀ connm,
      descriptor_step Sample.host0 (table_of Sample.networked)
        (index_of Sample.networked) 10 Sample.browser connm Sample.tcp_far =
        Ok (<[(-1, -1, 10, 4) :=
               {| ftype := "TCP";
                  cname := "192.0.2.7:50000";
                  self := {| Main.pid := -1; fd := -1; command := "443";
                             name := "203.0.113.5:443" |};
                  peer := {| Main.pid := 10; fd := 4;
                             command := "/usr/bin/browser";
                             name := "192.0.2.7:50000" |} |}]> connm))
   ∧ {| ftype := "TCP";
        cname := "192.0.2.7:50000";
        self := {| Main.pid := -1; fd := -1; command := "443";
                   name := "203.0.113.5:443" |};
        peer := {| Main.pid := 10; fd := 4; command := "/usr/bin/browser";
                   name := "192.0.2.7:50000" |} |}
       ∈ connections Sample.host0 Sample.networked Sample.networked
           (table_of Sample.networked))
  ∧ ("203.0.113.5" ∈ localIps Sample.host0
     ∨ is_Some (interfaces Sample.host0 !! "203.0.113.5")
     ∨ net.IsLoopback (net.IPv4 203 0 113 5) = true
     ∨ net.IsInterfaceLocalMulticast (net.IPv4 203 0 113 5) = true
     ∨ net.IsLinkLocalMulticast (net.IPv4 203 0 113 5) = true
     ∨ net.IsLinkLocalUnicast (net.IPv4 203 0 113 5) = true →
     (∀ connm,
        descriptor_step Sample.host0 (table_of Sample.networked)
          (index_of Sample.networked) 10 Sample.browser connm Sample.tcp_far
        = Ok connm)
     ∧ ∀ c, c ∈ connections Sample.host0 Sample.networked Sample.networked
                  (table_of Sample.networked) →
            ¬ (Main.pid (self c) = -1 ∧ fd (self c) = -1
               ∧ Main.pid (peer c) = 10 ∧ fd (peer c) = 4))
  ∧ (Peer Sample.tcp_far = "127.0.0.1:8080" →
     net.IsLoopback (net.IPv4 203 0 113 5) = true).
Proof.
  apply (external_host_classification Sample.host0 (table_of Sample.networked)
           Sample.networked Sample.networked (index_of Sample.networked)
           10 Sample.browser Sample.tcp_far (net.IPv4 203 0 113 5)).
  - apply sample_visits_networked.
  - apply sample_visits_networked.
  - by vm_compute.
  - vm_compute; reflexivity.
  - vm_compute; reflexivity.
  - vm_compute; reflexivity.
  - right; by left.
  - intros conn' Hin Hfd.
    repeat (apply elem_of_cons in Hin as [->|Hin]); try discriminate Hfd;
      [reflexivity|by apply elem_of_nil in Hin].
  - by left.
  - discriminate.
  - vm_compute; reflexivity.
  - vm_compute; reflexivity.
  - vm_compute; reflexivity.
  - discriminate.
Defined.

Lemma sample_visits_networked_orphan :
  visits (table_of Sample3.networked_orphan) Sample3.networked_orphan.
Proof. split; [by apply (bool_decide_unpack _); vm_compute|done]. Defined.

(** C3, as stated, fails twice.  The peer 203.0.113.5:443 of the sample
    descriptor splits, its host is an address that is neither local nor
    loopback nor link-local and the index does not hold it, but in a
    table that lacks the parent of the process the pass returns nothing.
    And the peer "elsewhere" is no host:port, yet the pass over the full
    table returns an external connection for its descriptor. *)
Lemma external_host_counterexample :
  (visits (table_of Sample3.networked_orphan) Sample3.networked_orphan
   ∧ table_of Sample3.networked_orphan !! 10 = Some (Some Sample.browser)
   ∧ Sample.tcp_far ∈ Connections Sample.browser
   ∧ Type_ Sample.tcp_far = "TCP"
   ∧ index_of Sample3.networked_orphan
       !! epkey (Type_ Sample.tcp_far) (Peer Sample.tcp_far) = None
   ∧ net.SplitHostPort (Peer Sample.tcp_far) = ("203.0.113.5", "443", false)
   ∧ remote Sample.host0 (Peer Sample.tcp_far) = true
   ∧ connections Sample.host0 Sample3.networked_orphan Sample3.networked_orphan
       (table_of Sample3.networked_orphan) = [])
  ∧ ((net.SplitHostPort (Peer Sample.tcp_odd)).2 = true
     ∧ external_connection 10 Sample.browser Sample.tcp_odd
         ∈ connections Sample.host0 Sample.networked Sample.networked
             (table_of Sample.networked)).
Proof.
  split; split_and!; try apply sample_visits_networked_orphan;
    try (vm_compute; reflexivity).
  - right; by left.
  - vm_compute. right. by left.
Qed.

(** * One connection per reciprocal pair *)

Lemma reciprocal_spec conn rconn :
  reciprocal conn rconn ↔
  Type_ conn = Type_ rconn ∧ Peer conn = Self rconn
  ∧ (Peer rconn = Self conn
     ∨ Peer rconn = "" ∧ (Type_ conn = "PSXSHM" ∨ Type_ conn = "unix")).
Proof.
  unfold reciprocal.
  rewrite Is_true_true, !andb_true_iff, !orb_true_iff, !andb_true_iff,
    !orb_true_iff, !String.eqb_eq. tauto.
Qed.

Section pair.
Context (h : host) (pt : processTable) (order1 : list (Pid * option process))
        (epm : epmap).
Hypothesis Hvisits1 : visits pt order1.
Hypothesis Hepm : build_epm order1 = Ok epm.

Context (P Q : Pid) (p q : process) (A B : Connection).
Hypothesis HP : pt !! P = Some (Some p).
Hypothesis HQ : pt !! Q = Some (Some q).
Hypothesis HPQ : P ≠ Q.
Hypothesis HA : A ∈ Connections p.
Hypothesis HB : B ∈ Connections q.
Hypothesis HtA : transport (Type_ A).
Hypothesis HpeerA : Peer A ≠ "".
Hypothesis Hrec : reciprocal A B.

Let k1 : key := (P, Descriptor A, Q, Descriptor B).
Let k2 : key := (Q, Descriptor B, P, Descriptor A).

Lemma reciprocal_indexed : indexed B ∧ epkey (Type_ A) (Peer A) = epkey (Type_ B) (Self B).
Proof.
  apply reciprocal_spec in Hrec as (Ht & Hs & _). split.
  - apply indexed_spec. split; [congruence|by rewrite <-Ht].
  - by rewrite Ht, Hs.
Qed.

(** The iteration for [A] leaves one of the two keys recorded. *)
Lemma descriptor_step_records_pair connmA connmB :
  descriptor_step h pt epm P p connmA A = Ok connmB →
  is_Some (connmB !! k1) ∨ is_Some (connmB !! k2).
Proof.
  destruct reciprocal_indexed as [HiB Hkey].
  apply list_elem_of_lookup in HB as [j Hj].
  assert (occurs epm (epkey (Type_ A) (Peer A)) Q j) as (m & ix & Hm & Hix & Hjix).
  { apply (build_epm_occurs pt order1); [done..|]. exists q, B. by rewrite Hkey. }
  rewrite descriptor_step_transport by done.
  destruct (String.eqb_spec (Peer A) ""); [done|]. rewrite Hm.
  assert (Q ∈ rpids m) as HQin by (apply rpids_elem_of; by eexists).
  apply list_elem_of_split in HQin as (r1 & r2 & Hr). rewrite Hr.
  intros (c0 & c1 & _ & HstepQ & Hrest)%foldM_split.
  assert (evolves h pt epm c1 connmB) as Hev1.
  { revert Hrest. apply foldM_evolves. intros ?????.
    by eapply (rpid_step_evolves h pt epm P p A). }
  assert (is_Some (c1 !! k1) ∨ is_Some (c1 !! k2)) as [?|?];
    [|left; by eapply evolves_known|right; by eapply evolves_known].
  clear Hrest Hev1. unfold rpid_step in HstepQ.
  destruct (Z.eqb_spec P Q); [done|]. rewrite Hix in HstepQ. simpl in HstepQ.
  apply list_elem_of_split in Hjix as (i1 & i2 & Hi). rewrite Hi in HstepQ.
  apply foldM_split in HstepQ as (d0 & d1 & _ & Hstepj & Hrest).
  assert (evolves h pt epm d1 c1) as Hev1.
  { revert Hrest. apply foldM_evolves. intros ? i ? Hin.
    apply (candidate_step_evolves h pt epm P p A HP HA m Q ix i); try done.
    rewrite Hi. apply elem_of_app. right. by right. }
  assert (is_Some (d1 !! k1) ∨ is_Some (d1 !! k2)) as [?|?];
    [|left; by eapply evolves_known|right; by eapply evolves_known].
  clear Hrest Hev1. unfold candidate_step in Hstepj.
  apply at_pid_Some in HQ as HQ'. rewrite HQ' in Hstepj. simpl in Hstepj.
  unfold index in Hstepj. rewrite Hj in Hstepj. simpl in Hstepj.
  rewrite (Is_true_true_1 _ Hrec) in Hstepj. simpl in Hstepj.
  unfold known in Hstepj. fold k1 k2 in Hstepj.
  destruct (decide (is_Some (d0 !! k1))) as [?|?].
  { rewrite bool_decide_eq_true_2 in Hstepj by done.
    injection Hstepj as <-. by left. }
  rewrite bool_decide_eq_false_2 in Hstepj by done.
  destruct (decide (is_Some (d0 !! k2))) as [?|?].
  { rewrite bool_decide_eq_true_2 in Hstepj by done.
    injection Hstepj as <-. by right. }
  rewrite bool_decide_eq_false_2 in Hstepj by done.
  injection Hstepj as <-. left. by rewrite lookup_insert_eq.
Qed.

(** For ordinary processes and descriptor numbers, no write of the pass
    records the second key of the pair while the first is present. *)
Lemma evolves_pair_exclusive m m' :
  ordinary P → ordinary Q → 0 ≤ Descriptor A → 0 ≤ Descriptor B →
  evolves h pt epm m m' →
  ¬ (is_Some (m !! k1) ∧ is_Some (m !! k2)) →
  ¬ (is_Some (m' !! k1) ∧ is_Some (m' !! k2)).
Proof.
  intros HoP HoQ HfA HfB Hev.
  apply (evolves_invariant h pt epm
           (λ m, ¬ (is_Some (m !! k1) ∧ is_Some (m !! k2))) m m'); [|done].
  clear m m' Hev. intros m k c Hm Hem.
  unfold ordinary, MaxInt32 in *. subst k1 k2.
  rewrite !lookup_insert_is_Some.
  inversion Hem; subst; unfold MaxInt32 in *;
    try (intros [[?|[? ?]] [?|[? ?]]]; simplify_eq; (lia || tauto)).
  intros [[?|[? ?]] [?|[? ?]]]; simplify_eq; try tauto.
  all: repeat match goal with
              | H : Descriptor _ = Descriptor _ |- _ => rewrite H in *; clear H
              end.
  all: match goal with
       | H : ?m !! ?k = None, H' : is_Some (?m !! ?k) |- _ =>
           rewrite H in H'; by destruct H'
       end.
Qed.

End pair.

Section counting.
Context {A : Type} (P : A → Prop) `{∀ x, Decision (P x)}.

Lemma filter_none (l : list A) : (∀ y, y ∈ l → ¬ P y) → filter P l = [].
Proof.
  induction l as [|y l IH]; intros Hl; [done|].
  rewrite filter_cons_False by (apply Hl; by left).
  apply IH. intros z ?. apply Hl. by right.
Qed.

Lemma length_filter_one (l : list A) x :
  NoDup l → x ∈ l → P x → (∀ y, y ∈ l → P y → y = x) →
  length (filter P l) = 1%nat.
Proof.
  induction 1 as [|y l Hy Hl IH]; intros Hx HPx Huniq; [by inv Hx|].
  destruct (decide (P y)) as [HPy|HPy].
  - assert (y = x) as -> by (apply Huniq; [by left|done]).
    rewrite filter_cons_True by done. simpl. f_equal.
    rewrite filter_none; [done|]. intros z Hz HPz.
    assert (z = x) as -> by (apply Huniq; [by right|done]). done.
  - rewrite filter_cons_False by done. apply IH; [|done|].
    + inv Hx; [done|done].
    + intros z ??. apply Huniq; [by right|done].
Qed.
End counting.

Lemma NoDup_ordered connm :
  (∀ k c, connm !! k = Some c → key_of c = k) →
  NoDup (ordered (map_to_list connm).*1 connm).
Proof.
  intros Hk. apply (NoDup_fmap_1 key_of). rewrite ordered_key_of by done.
  apply NoDup_sort_Slice, NoDup_fst_map_to_list.
Qed.

Lemma joins_spec P a Q b c :
  joins P a Q b c ↔ key_of c = (P, a, Q, b) ∨ key_of c = (Q, b, P, a).
Proof. unfold joins. by rewrite orb_True, !bool_decide_spec. Qed.

Lemma sample_visits_piped : visits (table_of Sample.piped) Sample.piped.
Proof. split; [by apply (bool_decide_unpack _); vm_compute|done]. Defined.

Lemma sample_visits_piped_reversed :
  visits (table_of Sample.piped) Sample.piped_reversed.
Proof.
  split; [by apply (bool_decide_unpack _); vm_compute|by vm_compute].
Defined.

(** C1 (amended): on a closed table, for a descriptor [A] of process [P]
    with a transport type and a non-empty peer string and a descriptor [B]
    of another process [Q] that meets the reciprocal condition for [A],
    both processes ordinary and both descriptor numbers non-negative,
    exactly one connection of the result joins (P, A) and (Q, B),
    whatever the orders in which the loops visit the table; and a
    candidate whose pair with [A] is recorded under the key of either
    direction leaves the connection map as it is. *)
Theorem reciprocal_pair_once h pt order1 order2 P Q p q A B :
  visits pt order1 → visits pt order2 → closed pt →
  pt !! P = Some (Some p) → pt !! Q = Some (Some q) → P ≠ Q →
  A ∈ Connections p → B ∈ Connections q →
  transport (Type_ A) → Peer A ≠ "" → reciprocal A B →
  ordinary P → ordinary Q → 0 ≤ Descriptor A → 0 ≤ Descriptor B →
  length (filter (λ c, joins P (Descriptor A) Q (Descriptor B) c)
                 (connections h order1 order2 pt)) = 1%nat
  ∧ ∀ connm rpid i rp rconn,
      at_pid pt rpid = Some rp → Connections rp !! i = Some rconn →
      is_Some (connm !! (P, Descriptor A, rpid, Descriptor rconn))
      ∨ is_Some (connm !! (rpid, Descriptor rconn, P, Descriptor A)) →
      candidate_step pt P p A rpid connm i = Ok connm.
Proof.
  intros Hv1 Hv2 Hc HP HQ HPQ HA HB HtA HpA Hrec HoP HoQ HfA HfB. split.
  2:{ intros connm rpid i rp rconn Hrp Hrc Hknown.
      unfold candidate_step. rewrite Hrp. simpl. unfold index. rewrite Hrc. simpl.
      destruct (negb _); [done|]. unfold known.
      destruct Hknown as [Hk|Hk].
      - by rewrite (bool_decide_eq_true_2 _ Hk).
      - rewrite (bool_decide_eq_true_2 _ Hk). by destruct (bool_decide _). }
  destruct (connections_total h pt order1 order2 Hv1 Hv2 Hc)
    as (epm & connm & Hepm & Hcor & Hev & ->).
  pose proof (result_key_of h pt order1 order2 Hv2 epm connm Hepm Hcor) as Hkey.
  set (k1 := (P, Descriptor A, Q, Descriptor B)).
  set (k2 := (Q, Descriptor B, P, Descriptor A)).
  assert (is_Some (connm !! k1) ∨ is_Some (connm !! k2)) as Hsome.
  { destruct (correlate_reaches_descriptor h pt epm order2 connm P p A)
      as (cA & cB & Hstep & HevB); [done..|].
    destruct (descriptor_step_records_pair h pt order1 epm Hv1 Hepm P Q p q A B
                HP HQ HPQ HA HB HtA HpA Hrec cA cB Hstep) as [?|?];
      [left|right]; by eapply evolves_known. }
  assert (¬ (is_Some (connm !! k1) ∧ is_Some (connm !! k2))) as Hexcl.
  { apply (evolves_pair_exclusive h pt epm P Q p q A B HP HQ HPQ HpA ∅ connm);
      try done.
    rewrite lookup_empty. by intros [[] _]. }
  assert (∃ c, (connm !! k1 = Some c ∨ connm !! k2 = Some c)) as [c Hc'].
  { destruct Hsome as [[c ?]|[c ?]]; exists c; auto. }
  apply (length_filter_one _ _ c).
  - by apply NoDup_ordered.
  - apply elem_of_ordered. destruct Hc'; eauto.
  - apply joins_spec. destruct Hc' as [?%Hkey|?%Hkey]; auto.
  - intros y [k Hy]%elem_of_ordered Hj%joins_spec.
    rewrite (Hkey _ _ Hy) in Hj. subst k1 k2.
    destruct Hj as [-> | ->], Hc' as [Hc'|Hc']; try congruence;
      destruct Hexcl; split; by eexists.
Qed.

Lemma reciprocal_pair_once_witness :
  length (filter (λ c, joins 10 3 20 4 c)
            (connections Sample.host0 Sample.piped Sample.piped_reversed
               (table_of Sample.piped))) = 1%nat
  ∧ ∀ connm rpid i rp rconn,
      at_pid (table_of Sample.piped) rpid = Some rp →
      Connections rp !! i = Some rconn →
      is_Some (connm !! (10, 3, rpid, Descriptor rconn))
      ∨ is_Some (connm !! (rpid, Descriptor rconn, 10, 3)) →
      candidate_step (table_of Sample.piped) 10 Sample.writer Sample.pipe_a rpid
        connm i = Ok connm.
Proof.
  apply (reciprocal_pair_once Sample.host0 (table_of Sample.piped)
           Sample.piped Sample.piped_reversed 10 20
           Sample.writer Sample.reader Sample.pipe_a Sample.pipe_b).
  - apply sample_visits_piped.
  - apply sample_visits_piped_reversed.
  - by vm_compute.
  - vm_compute; reflexivity.
  - vm_compute; reflexivity.
  - lia.
  - by left.
  - by left.
  - by vm_compute.
  - discriminate.
  - by vm_compute.
  - unfold ordinary, MaxInt32; lia.
  - unfold ordinary, MaxInt32; lia.
  - simpl; lia.
  - simpl; lia.
Defined.

Lemma sample_visits_piped_orphans :
  visits (table_of Sample3.piped_orphans) Sample3.piped_orphans.
Proof. split; [by apply (bool_decide_unpack _); vm_compute|done]. Defined.

Lemma sample_visits_crossed : visits (table_of Sample3.crossed) Sample3.crossed.
Proof. split; [by apply (bool_decide_unpack _); vm_compute|done]. Defined.

(** C1, as stated, fails twice.  The two ends of the sample pipe meet
    the reciprocal condition, but in a table that lacks their parent the
    pass returns nothing, so no connection joins them.  And on a closed
    table, a reciprocal pair between process 0 and a process that also
    has a kernel control socket under the same descriptor number is
    joined by two connections, since the kernel connection is stored,
    without a test, under the key of the reversed pair. *)
Lemma reciprocal_pair_counterexample :
  (visits (table_of Sample3.piped_orphans) Sample3.piped_orphans
   ∧ table_of Sample3.piped_orphans !! 10 = Some (Some Sample.writer)
   ∧ table_of Sample3.piped_orphans !! 20 = Some (Some Sample.reader)
   ∧ Sample.pipe_a ∈ Connections Sample.writer
   ∧ Sample.pipe_b ∈ Connections Sample.reader
   ∧ reciprocal Sample.pipe_a Sample.pipe_b = true
   ∧ closed (table_of Sample3.piped_orphans) = false
   ∧ length (filter (λ c, joins 10 3 20 4 c)
               (connections Sample.host0 Sample3.piped_orphans Sample3.piped_orphans
                  (table_of Sample3.piped_orphans))) = 0%nat)
  ∧ (visits (table_of Sample3.crossed) Sample3.crossed
     ∧ closed (table_of Sample3.crossed) = true
     ∧ table_of Sample3.crossed !! 7 = Some (Some Sample3.daemon7)
     ∧ table_of Sample3.crossed !! 0 = Some (Some Sample3.kernel0)
     ∧ Sample3.cross_a ∈ Connections Sample3.daemon7
     ∧ Sample3.cross_b ∈ Connections Sample3.kernel0
     ∧ reciprocal Sample3.cross_a Sample3.cross_b = true
     ∧ length (filter (λ c, joins 7 0 0 0 c)
                 (connections Sample.host0 Sample3.crossed Sample3.crossed
                    (table_of Sample3.crossed))) = 2%nat).
Proof.
  split; split_and!;
    try apply sample_visits_piped_orphans; try apply sample_visits_crossed;
    try (vm_compute; reflexivity); by left.
Qed.

(** * The candidates of one descriptor *)

Lemma StronglySorted_weaken {A} (R1 R2 : A → A → Prop) l :
  (∀ x y, R1 x y → R2 x y) → StronglySorted R1 l → StronglySorted R2 l.
Proof.
  intros HR. induction 1 as [|x l _ IH Hall]; constructor; [done|].
  eapply Forall_impl; [done|]. auto.
Qed.

(** The candidate processes are tried in ascending order of process id. *)
Lemma rpids_sorted (m : gmap Z (list nat)) : StronglySorted Z.lt (rpids m).
Proof.
  apply (StronglySorted_weaken (λ x y : Z, Z.ltb x y)).
  { intros x y Hxy. by apply Z.ltb_lt, Is_true_true. }
  apply sort_Slice_sorted; [..|apply NoDup_fst_map_to_list].
  - intros x y z. rewrite !Is_true_true, !Z.ltb_lt. lia.
  - intros x y Hxy Hyx. destruct (Z.ltb_spec x y), (Z.ltb_spec y x); try done. lia.
Qed.

Section candidates.
Context (h : host) (pt : processTable) (order1 : list (Pid * option process))
        (epm : epmap).
Hypothesis Hvisits1 : visits pt order1.
Hypothesis Hepm : build_epm order1 = Ok epm.

Context (pid : Pid) (p : process) (conn : Connection) (m : gmap Z (list nat)).
Hypothesis Hp : pt !! pid = Some (Some p).
Hypothesis Hconn : conn ∈ Connections p.
Hypothesis Ht : transport (Type_ conn).
Hypothesis Hpeer : Peer conn ≠ "".
Hypothesis Hm : epm !! epkey (Type_ conn) (Peer conn) = Some m.

Context (connm : connmap).

Local Abbreviation accepted := (accepted pt pid p conn m connm).
Local Abbreviation within := (within pt pid p conn m connm).

Lemma accepted_functional k c1 c2 : accepted k c1 → accepted k c2 → c1 = c2.
Proof.
  intros (r1 & ? & ? & rp1 & rc1 & _ & _ & _ & Hrp1 & _ & _ & _ & -> & ->)
         (r2 & ? & ? & rp2 & rc2 & _ & _ & _ & Hrp2 & _ & _ & _ & [= <- Hd] & ->).
  assert (rp2 = rp1) as -> by congruence.
  unfold peer_connection. by rewrite Hd.
Qed.

Lemma within_start : within connm.
Proof. split_and!; auto. Qed.

Lemma candidate_step_within rpid ix i m1 m2 :
  m !! rpid = Some ix → i ∈ ix → rpid ≠ pid →
  candidate_step pt pid p conn rpid m1 i = Ok m2 →
  within m1 → within m2.
Proof.
  intros Hix Hi Hne Hstep (J1 & J2 & J3).
  destruct (index_position pt order1 epm Hvisits1 Hepm _ _ _ _ _ Hm Hix Hi)
    as (rp & rconn & Hrp & Hrc & _).
  unfold candidate_step in Hstep. rewrite Hrp in Hstep. simpl in Hstep.
  unfold index in Hstep. rewrite Hrc in Hstep. simpl in Hstep.
  destruct (reciprocal conn rconn) eqn:Hrec; simpl in Hstep;
    [|injection Hstep as <-; by split_and!].
  destruct (known m1 _) eqn:Hk1 in Hstep; [injection Hstep as <-; by split_and!|].
  destruct (known m1 _) eqn:Hk2 in Hstep; [injection Hstep as <-; by split_and!|].
  injection Hstep as <-. apply known_spec in Hk1, Hk2.
  assert (connm !! (pid, Descriptor conn, rpid, Descriptor rconn) = None) as Hnew.
  { destruct (connm !! _) as [c|] eqn:E; [|done]. apply J2 in E. congruence. }
  split_and!.
  - intros k c. rewrite lookup_insert_Some. intros [[<- <-]|[_ ?]]; [|by auto].
    right. split; [done|]. exists rpid, ix, i, rp, rconn. split_and!; try done.
    + by rewrite Hrec.
    + rewrite <-J3; [done|]. simpl. done.
  - intros k c Hc. rewrite lookup_insert_ne; [by auto|]. intros <-. congruence.
  - intros k Hk. rewrite lookup_insert_ne; [by auto|]. by intros <-.
Qed.

Lemma candidate_fold_within rpid ix ixs m1 m2 :
  m !! rpid = Some ix → ixs ⊆ ix → rpid ≠ pid →
  foldM (candidate_step pt pid p conn rpid) m1 ixs = Ok m2 →
  within m1 → within m2.
Proof.
  intros Hix Hsub Hne Hfold Hw. revert Hw Hfold. apply foldM_invariant.
  intros ??? Hin ??. eapply candidate_step_within; eauto.
Qed.

Lemma rpid_step_within rpid m1 m2 :
  rpid_step pt pid p conn m m1 rpid = Ok m2 → within m1 → within m2.
Proof.
  unfold rpid_step. destruct (Z.eqb_spec pid rpid); [by intros [= <-]|].
  destruct (m !! rpid) as [ix|] eqn:Hix; simpl; [|by intros [= <-]].
  intros. by eapply (candidate_fold_within rpid ix ix).
Qed.

Lemma rpid_fold_within rs m1 m2 :
  foldM (rpid_step pt pid p conn m) m1 rs = Ok m2 → within m1 → within m2.
Proof.
  intros Hfold Hw. revert Hw Hfold. apply foldM_invariant.
  intros ??? _ ??. by eapply rpid_step_within.
Qed.

(** A recorded connection stays through the remaining candidates. *)
Lemma candidate_step_keeps rpid m1 i m2 k c :
  candidate_step pt pid p conn rpid m1 i = Ok m2 →
  m1 !! k = Some c → m2 !! k = Some c.
Proof.
  unfold candidate_step.
  intros (rp & _ & (rconn & _ & Hstep)%bind_Ok)%bind_Ok Hk.
  destruct (negb _); [by injection Hstep as <-|].
  destruct (known m1 _) eqn:Hk1 in Hstep; [by injection Hstep as <-|].
  destruct (known m1 _) eqn:Hk2 in Hstep; [by injection Hstep as <-|].
  injection Hstep as <-. apply known_spec in Hk1.
  rewrite lookup_insert_ne; [done|]. intros <-. congruence.
Qed.

Lemma candidate_fold_keeps rpid ixs m1 m2 k c :
  foldM (candidate_step pt pid p conn rpid) m1 ixs = Ok m2 →
  m1 !! k = Some c → m2 !! k = Some c.
Proof.
  intros Hfold Hk.
  apply (foldM_invariant (candidate_step pt pid p conn rpid)
           (λ m', m' !! k = Some c) ixs m1 m2); [|done..].
  intros ??? _ ??. by eapply candidate_step_keeps.
Qed.

Lemma rpid_fold_keeps rs m1 m2 k c :
  foldM (rpid_step pt pid p conn m) m1 rs = Ok m2 →
  m1 !! k = Some c → m2 !! k = Some c.
Proof.
  intros Hfold Hk.
  apply (foldM_invariant (rpid_step pt pid p conn m)
           (λ m', m' !! k = Some c) rs m1 m2); [|done..].
  intros m3 rpid m4 _ Hk3. unfold rpid_step.
  destruct (pid =? rpid); [by intros [= <-]|]. intros ?.
  by eapply candidate_fold_keeps.
Qed.

(** Every accepted candidate is recorded. *)
Lemma accepted_recorded connm' k c :
  foldM (rpid_step pt pid p conn m) connm (rpids m) = Ok connm' →
  connm !! k = None → accepted k c → connm' !! k = Some c.
Proof.
  intros Hfold Hnone Hacc.
  pose proof Hacc as (rpid & ix & i & rp & rconn & Hix & Hi & Hne & Hrp & Hrc
                      & Hrec & Hrev & -> & ->).
  assert (rpid ∈ rpids m) as Hin by (apply rpids_elem_of; by eexists).
  apply list_elem_of_split in Hin as (r1 & r2 & Hr). rewrite Hr in Hfold.
  apply foldM_split in Hfold as (c0 & c1 & Hpre & Hstep & Hrest).
  eapply rpid_fold_keeps; [done|]. clear Hrest.
  apply rpid_fold_within in Hpre as Hw0; [|apply within_start].
  unfold rpid_step in Hstep. destruct (Z.eqb_spec pid rpid); [done|].
  rewrite Hix in Hstep. simpl in Hstep.
  apply list_elem_of_split in Hi as (i1 & i2 & Hi). rewrite Hi in Hstep.
  apply foldM_split in Hstep as (d0 & d1 & Hpre' & Hstep & Hrest).
  eapply candidate_fold_keeps; [done|]. clear Hrest.
  apply (candidate_fold_within rpid ix) in Hpre' as (J1 & J2 & J3);
    [|done|rewrite Hi; set_solver|done|done].
  unfold candidate_step in Hstep. rewrite Hrp in Hstep. simpl in Hstep.
  unfold index in Hstep. rewrite Hrc in Hstep. simpl in Hstep.
  rewrite (Is_true_true_1 _ Hrec) in Hstep. simpl in Hstep.
  destruct (known d0 (pid, _, _, _)) eqn:Hk1 in Hstep.
  { injection Hstep as <-. unfold known in Hk1.
    apply bool_decide_eq_true in Hk1 as [c0' Hc0].
    destruct (J1 _ _ Hc0) as [?|[_ Hacc']]; [congruence|].
    rewrite Hc0. f_equal. by eapply accepted_functional. }
  destruct (known d0 (rpid, _, _, _)) eqn:Hk2 in Hstep.
  { unfold known in Hk2. apply bool_decide_eq_true in Hk2 as [c0' Hc0].
    rewrite J3 in Hc0 by done. congruence. }
  injection Hstep as <-. by rewrite lookup_insert_eq.
Qed.

End candidates.

(** C2 (amended): when the index holds the peer endpoint of a transport
    descriptor, the candidate processes are tried in ascending order of
    process id, the descriptor's own process is skipped, and a candidate
    descriptor is accepted exactly when its type equals this descriptor's
    type, its self string equals this descriptor's peer string, and either
    its peer string equals this descriptor's self string or its peer
    string is empty and the type is PSXSHM or unix.  Every accepted
    candidate, not only the first, is recorded unless its pair is already
    recorded in one of the two directions. *)
Theorem candidates_accepted h pt order1 epm pid p conn m connm :
  visits pt order1 → build_epm order1 = Ok epm →
  pt !! pid = Some (Some p) → conn ∈ Connections p →
  transport (Type_ conn) → Peer conn ≠ "" →
  epm !! epkey (Type_ conn) (Peer conn) = Some m →
  StronglySorted Z.lt (rpids m)
  ∧ (∀ rpid, rpid ∈ rpids m ↔ is_Some (m !! rpid))
  ∧ (∀ connm1, rpid_step pt pid p conn m connm1 pid = Ok connm1)
  ∧ (∀ rconn, reciprocal conn rconn ↔
       Type_ rconn = Type_ conn ∧ Self rconn = Peer conn
       ∧ (Peer rconn = Self conn
          ∨ Peer rconn = "" ∧ (Type_ conn = "PSXSHM" ∨ Type_ conn = "unix")))
  ∧ ∃ connm',
      descriptor_step h pt epm pid p connm conn = Ok connm'
      ∧ ∀ k c, connm' !! k = Some c ↔
               connm !! k = Some c
               ∨ (connm !! k = None ∧ accepted pt pid p conn m connm k c).
Proof.
  intros Hv Hepm Hp Hconn Ht Hpeer Hm. split_and!.
  - apply rpids_sorted.
  - apply rpids_elem_of.
  - intros connm1. unfold rpid_step. by rewrite Z.eqb_refl.
  - intros rconn. rewrite reciprocal_spec. naive_solver.
  - destruct (descriptor_step_total h pt order1 epm Hv Hepm pid p connm conn)
      as [connm' Hstep].
    exists connm'. split; [done|].
    rewrite descriptor_step_transport in Hstep by done.
    destruct (String.eqb_spec (Peer conn) ""); [done|]. rewrite Hm in Hstep.
    intros k c. split.
    + apply (rpid_fold_within pt order1 epm Hv Hepm pid p conn m Hm connm)
        in Hstep as (J1 & _); [by apply J1|]. apply within_start.
    + intros [Hk|[Hnone Hacc]].
      * apply (rpid_fold_within pt order1 epm Hv Hepm pid p conn m Hm connm)
          in Hstep as (_ & J2 & _); [by apply J2|]. apply within_start.
      * by apply (accepted_recorded pt order1 epm Hv Hepm pid p conn m
                    Hp Hconn Ht Hpeer Hm connm connm').
Qed.

Lemma sample_visits_sockets : visits (table_of Sample.sockets) Sample.sockets.
Proof. split; [by apply (bool_decide_unpack _); vm_compute|done]. Defined.

Lemma candidates_accepted_witness :
  StronglySorted Z.lt (rpids Sample.unix_a_candidates)
  ∧ (∀ rpid, rpid ∈ rpids Sample.unix_a_candidates
             ↔ is_Some (Sample.unix_a_candidates !! rpid))
  ∧ (∀ connm1, rpid_step (table_of Sample.sockets) 10 Sample.client Sample.unix_a
                 Sample.unix_a_candidates connm1 10 = Ok connm1)
  ∧ (∀ rconn, reciprocal Sample.unix_a rconn ↔
       Type_ rconn = Type_ Sample.unix_a ∧ Self rconn = Peer Sample.unix_a
       ∧ (Peer rconn = Self Sample.unix_a
          ∨ Peer rconn = "" ∧ (Type_ Sample.unix_a = "PSXSHM"
                               ∨ Type_ Sample.unix_a = "unix")))
  ∧ ∃ connm',
      descriptor_step Sample.host0 (table_of Sample.sockets)
        (index_of Sample.sockets) 10 Sample.client ∅ Sample.unix_a = Ok connm'
      ∧ ∀ k c, connm' !! k = Some c ↔
               (∅ : connmap) !! k = Some c
               ∨ ((∅ : connmap) !! k = None
                  ∧ accepted (table_of Sample.sockets) 10 Sample.client Sample.unix_a
                      Sample.unix_a_candidates ∅ k c).
Proof.
  apply (candidates_accepted Sample.host0 (table_of Sample.sockets) Sample.sockets).
  - apply sample_visits_sockets.
  - vm_compute; reflexivity.
  - vm_compute; reflexivity.
  - by left.
  - by vm_compute.
  - discriminate.
  - vm_compute; reflexivity.
Defined.

(** C2, as stated, fails twice on the sample sockets.  The candidate in
    process 20 has an empty peer string, so it does not meet the condition
    as the specification words it, and still the engine records the
    connection to it; and the candidate in process 30 is recorded as well,
    so the first accepted candidate is not the only match. *)
Lemma candidates_counterexample :
  reciprocal_as_specified Sample.unix_a Sample.unix_b = false
  ∧ (∃ c, c ∈ connections Sample.host0 Sample.sockets Sample.sockets
                (table_of Sample.sockets)
          ∧ key_of c = (10, 3, 20, 4))
  ∧ (∃ c, c ∈ connections Sample.host0 Sample.sockets Sample.sockets
                (table_of Sample.sockets)
          ∧ key_of c = (10, 3, 30, 5)).
Proof.
  split_and!; [reflexivity| |].
  - eexists. split; [vm_compute; do 5 right; by left|reflexivity].
  - eexists. split; [vm_compute; do 6 right; by left|reflexivity].
Qed.

(** * The index does not depend on the order of the first loop *)

Section filed_facts.

Lemma positions_app k l1 l2 : positions k (l1 ++ l2) = positions k l1 ++ positions k l2.
Proof. unfold positions. by rewrite omap_app. Qed.

Lemma filed_epm_add pid epm ic k pid' :
  filed (epm_add pid epm ic) k pid' =
  filed epm k pid' ++ (if decide (pid' = pid) then positions k [ic] else []).
Proof.
  destruct ic as [i conn]. unfold positions.
  destruct (indexed conn) eqn:Hix; cycle 1.
  { rewrite epm_add_skip by by apply Is_true_false. simpl. rewrite Hix. simpl.
    destruct (decide _); by rewrite app_nil_r. }
  rewrite epm_add_indexed by by apply Is_true_true. cbn zeta. unfold filed.
  simpl. rewrite Hix. simpl.
  destruct (String.eqb_spec (epkey (Type_ conn) (Self conn)) k) as [<-|Hk];
    simpl; cycle 1.
  { rewrite lookup_insert_ne by done. destruct (decide _); by rewrite app_nil_r. }
  rewrite lookup_insert_eq. simpl.
  destruct (decide (pid' = pid)) as [->|Hp].
  - rewrite lookup_insert_eq. simpl.
    destruct (epm !! epkey (Type_ conn) (Self conn)) as [m|]; simpl; [done|].
    by rewrite lookup_empty.
  - rewrite lookup_insert_ne by done. rewrite app_nil_r.
    destruct (epm !! epkey (Type_ conn) (Self conn)) as [m|]; simpl; [done|].
    by rewrite lookup_empty.
Qed.

Lemma filed_foldl pid epm l k pid' :
  filed (foldl (epm_add pid) epm l) k pid' =
  filed epm k pid' ++ (if decide (pid' = pid) then positions k l else []).
Proof.
  revert epm. induction l as [|ic l IH]; intros epm; cbn [foldl].
  { destruct (decide _); by rewrite app_nil_r. }
  rewrite IH, filed_epm_add. rewrite <-app_assoc. f_equal.
  destruct (decide _); [|done]. by rewrite <-positions_app.
Qed.

Lemma filed_process epm e epm' k pid :
  epm_process epm e = Ok epm' →
  filed epm' k pid =
  filed epm k pid ++ (if decide (pid = e.1) then positions_of k (Some e.2) else []).
Proof.
  unfold epm_process. destruct e as [pid' [p|]]; simpl; [|done].
  intros [= <-]. apply filed_foldl.
Qed.

Lemma filed_build_from order epm epm' k pid :
  NoDup order.*1 → foldM epm_process epm order = Ok epm' →
  filed epm' k pid =
  filed epm k pid ++ positions_of k ((list_to_map order : processTable) !! pid).
Proof.
  revert epm. induction order as [|[pid' op] order IH]; intros epm Hnd.
  { intros [= <-]. rewrite list_to_map_nil, lookup_empty. simpl.
    by rewrite app_nil_r. }
  apply NoDup_cons in Hnd as [Hpid' Hnd].
  intros (epm1 & He & Hrest)%foldM_cons_Ok.
  rewrite (IH _ Hnd Hrest), (filed_process _ _ _ _ _ He).
  rewrite list_to_map_cons. cbn [fst snd].
  rewrite <-app_assoc. f_equal.
  destruct (decide (pid = pid')) as [->|Hne].
  - rewrite lookup_insert_eq.
    rewrite (not_elem_of_list_to_map_1 (M := gmap Z) order pid') by done.
    simpl. by rewrite app_nil_r.
  - by rewrite lookup_insert_ne.
Qed.

(** The positions filed for a process are those of its own descriptors,
    in ascending order. *)
Lemma filed_build pt order epm k pid :
  visits pt order → build_epm order = Ok epm →
  filed epm k pid = positions_of k (pt !! pid).
Proof.
  intros [Hnd <-] Hb. rewrite (filed_build_from _ _ _ _ _ Hnd Hb).
  unfold filed. by rewrite lookup_empty.
Qed.

Lemma epm_ext (epm1 epm2 : epmap) :
  inhabited_entries epm1 → inhabited_entries epm2 →
  (∀ k pid, filed epm1 k pid = filed epm2 k pid) → epm1 = epm2.
Proof.
  assert (∀ e1 e2 : epmap, inhabited_entries e1 → inhabited_entries e2 →
            (∀ k pid, filed e1 k pid = filed e2 k pid) →
            ∀ k m1, e1 !! k = Some m1 → ∃ m2, e2 !! k = Some m2 ∧ m1 ⊆ m2) as Hsub.
  { intros e1 e2 Hi1 Hi2 Hf k m1 Hm1.
    destruct (Hi1 _ _ Hm1) as [Hne1 Hix1].
    apply map_choose in Hne1 as (pid & ix & Hpid).
    pose proof (Hf k pid) as Hfk. unfold filed in Hfk.
    rewrite Hm1 in Hfk. simpl in Hfk. rewrite Hpid in Hfk. simpl in Hfk.
    destruct (e2 !! k) as [m2|] eqn:Hm2; simpl in Hfk;
      [|by destruct (Hix1 _ _ Hpid)].
    exists m2. split; [done|]. apply map_subseteq_spec. intros pid' ix' Hpid'.
    pose proof (Hf k pid') as Hfk'. unfold filed in Hfk'.
    rewrite Hm1, Hm2 in Hfk'. simpl in Hfk'. rewrite Hpid' in Hfk'. simpl in Hfk'.
    destruct (m2 !! pid') as [ix2|]; simpl in Hfk'; [congruence|].
    by destruct (Hix1 _ _ Hpid'). }
  intros Hi1 Hi2 Hf. apply map_eq. intros k.
  destruct (epm1 !! k) as [m1|] eqn:H1, (epm2 !! k) as [m2|] eqn:H2; [| | |done].
  - destruct (Hsub epm1 epm2 Hi1 Hi2 Hf k m1 H1) as (m2' & ? & ?).
    destruct (Hsub epm2 epm1 Hi2 Hi1 (λ k pid, eq_sym (Hf k pid)) k m2 H2)
      as (m1' & ? & ?).
    assert (m2' = m2) as -> by congruence.
    assert (m1' = m1) as -> by congruence.
    f_equal. by apply (anti_symm (⊆)).
  - destruct (Hsub epm1 epm2 Hi1 Hi2 Hf k m1 H1) as (m2' & ? & ?). congruence.
  - destruct (Hsub epm2 epm1 Hi2 Hi1 (λ k pid, eq_sym (Hf k pid)) k m2 H2)
      as (m1' & ? & ?). congruence.
Qed.

Lemma build_epm_unique pt order order' epm epm' :
  visits pt order → visits pt order' →
  build_epm order = Ok epm → build_epm order' = Ok epm' → epm = epm'.
Proof.
  intros Hv Hv' Hb Hb'. apply epm_ext; [by eapply build_epm_inhabited..|].
  intros k pid. by rewrite (filed_build pt order), (filed_build pt order').
Qed.

(** Whether the first loop panics does not depend on its order
    either. *)
Lemma build_epm_order pt order order' :
  visits pt order → visits pt order' →
  match build_epm order, build_epm order' with
  | Ok epm, Ok epm' => epm = epm'
  | Panic _, Panic _ => True
  | _, _ => False
  end.
Proof.
  intros Hv Hv'.
  assert (∀ o o' e, visits pt o → visits pt o' → build_epm o = Panic e →
                    ∃ e', build_epm o' = Panic e') as Hpanic.
  { intros o o' e Ho Ho' (epm & [pid [p|]] & Hin & He)%foldM_Panic; [done|].
    apply (build_epm_nil o' pid), (visits_elem_of pt o'); [done|].
    by apply (visits_elem_of pt o). }
  destruct (build_epm order) as [epm|e] eqn:Hb,
           (build_epm order') as [epm'|e'] eqn:Hb'; [|..|done].
  - by apply (build_epm_unique pt order order').
  - destruct (Hpanic order' order e' Hv' Hv Hb') as [? ?]. congruence.
  - destruct (Hpanic order order' e Hv Hv' Hb) as [? ?]. congruence.
Qed.

End filed_facts.

(** * The claims on the index and on the order of the result *)

(** C6 (amended): on a table without nil entries the first loop completes,
    and the index files descriptor [i] of process [pid] under [k] exactly
    when that descriptor has a transport type and a non-empty local
    endpoint and [k] is the string "type: endpoint"; no entry is empty, a
    named unix socket gets no second entry, and an empty table gives an
    empty index. *)
Theorem endpoint_index_contents pt order :
  visits pt order → (∀ pid, pt !! pid ≠ Some None) →
  ∃ epm, build_epm order = Ok epm
    ∧ (∀ k pid i, occurs epm k pid i ↔
         ∃ p conn, pt !! pid = Some (Some p) ∧ Connections p !! i = Some conn
                   ∧ Self conn ≠ "" ∧ transport (Type_ conn)
                   ∧ k = epkey (Type_ conn) (Self conn))
    ∧ (∀ k pid, filed epm k pid = positions_of k (pt !! pid))
    ∧ inhabited_entries epm
    ∧ (pt = ∅ → epm = ∅).
Proof.
  intros Hv Hnn.
  destruct (build_epm_total order) as [epm Hb].
  { intros pid Hin%(visits_elem_of pt); [|done]. by destruct (Hnn pid). }
  exists epm. split_and!; [done| | | |].
  - intros k pid i. rewrite (build_epm_occurs pt order epm) by done.
    setoid_rewrite indexed_spec. naive_solver.
  - intros k pid. by apply (filed_build pt order).
  - by eapply build_epm_inhabited.
  - intros ->. apply map_eq. intros k. rewrite lookup_empty.
    destruct (epm !! k) as [m|] eqn:Hm; [|done].
    destruct (build_epm_inhabited order epm Hb k m Hm) as [Hne Hix].
    apply map_choose in Hne as (pid & ix & Hpid).
    destruct ix as [|i ix]; [by destruct (Hix _ _ Hpid)|].
    assert (occurs epm k pid i) as Ho.
    { exists m, (i :: ix). split_and!; [done..|by left]. }
    apply (build_epm_occurs ∅ order epm) in Ho as (p & conn & Hp & _); [|done..].
    by rewrite lookup_empty in Hp.
Qed.

Lemma sample_visits_named_socket :
  visits (table_of Sample.named_socket) Sample.named_socket.
Proof. split; [by apply (bool_decide_unpack _); vm_compute|done]. Defined.

Lemma endpoint_index_contents_witness :
  ∃ epm, build_epm Sample.named_socket = Ok epm
    ∧ (∀ k pid i, occurs epm k pid i ↔
         ∃ p conn, table_of Sample.named_socket !! pid = Some (Some p)
                   ∧ Connections p !! i = Some conn
                   ∧ Self conn ≠ "" ∧ transport (Type_ conn)
                   ∧ k = epkey (Type_ conn) (Self conn))
    ∧ (∀ k pid, filed epm k pid
                = positions_of k (table_of Sample.named_socket !! pid))
    ∧ inhabited_entries epm
    ∧ (table_of Sample.named_socket = ∅ → epm = ∅).
Proof.
  apply (endpoint_index_contents (table_of Sample.named_socket) Sample.named_socket).
  - apply sample_visits_named_socket.
  - intros pid. unfold table_of, Sample.named_socket. simpl.
    destruct (decide (pid = 10)) as [->|Hne].
    + by rewrite lookup_insert_eq.
    + by rewrite lookup_insert_ne, lookup_empty.
Defined.

(** C6, as stated, fails for the named unix socket: the index of a table
    whose only descriptor is the unix socket /var/run/syslog has the one
    entry under "unix: /var/run/syslog" and no second one. *)
Lemma endpoint_index_counterexample :
  build_epm Sample.named_socket
  = Ok {["unix: /var/run/syslog" := {[10 := [0%nat]]}]}.
Proof. vm_compute. reflexivity. Qed.

(** * Keys that an iteration leaves alone *)

Section foreign.
Context (h : host) (pt : processTable) (epm : epmap).

(** While process [pid] is visited, a key whose self process is another
    one and whose self descriptor is not -1 keeps what it holds: the
    connections of [pid] have [pid] as self process, and parent and
    external connections have -1 as self descriptor. *)
Lemma candidate_step_foreign pid p conn rpid m i m' (k : key) :
  candidate_step pt pid p conn rpid m i = Ok m' →
  k.1.1.1 ≠ pid → m' !! k = m !! k.
Proof.
  unfold candidate_step.
  intros (rp & _ & (rconn & _ & Hstep)%bind_Ok)%bind_Ok Hk.
  destruct (negb _); [by injection Hstep as <-|].
  destruct (known m _) in Hstep; [by injection Hstep as <-|].
  destruct (known m _) in Hstep; [by injection Hstep as <-|].
  injection Hstep as <-. apply lookup_insert_ne. by intros <-.
Qed.

Lemma rpid_step_foreign pid p conn mm m rpid m' (k : key) :
  rpid_step pt pid p conn mm m rpid = Ok m' →
  k.1.1.1 ≠ pid → m' !! k = m !! k.
Proof.
  unfold rpid_step. destruct (pid =? rpid); [by intros [= <-]|].
  intros Hfold Hk.
  apply (foldM_invariant (candidate_step pt pid p conn rpid)
           (λ m0, m0 !! k = m !! k) (default [] (mm !! rpid)) m m'); [|done..].
  intros m1 i m2 _ <- Hstep. by eapply candidate_step_foreign.
Qed.

Lemma descriptor_step_foreign pid p m conn m' (k : key) :
  descriptor_step h pt epm pid p m conn = Ok m' →
  k.1.1.1 ≠ pid → k.1.1.2 ≠ -1 → m' !! k = m !! k.
Proof.
  unfold descriptor_step. intros Hstep Hk Hfd.
  destruct (String.eqb _ "NUL"); [by injection Hstep as <-|].
  destruct (data _).
  { injection Hstep as <-. apply lookup_insert_ne. by intros <-. }
  destruct (String.eqb _ "systm").
  { injection Hstep as <-. apply lookup_insert_ne. by intros <-. }
  destruct (transport _); [|by injection Hstep as <-].
  destruct (String.eqb (Peer conn) ""); [by injection Hstep as <-|].
  destruct (epm !! _) as [mm|].
  - apply (foldM_invariant (rpid_step pt pid p conn mm)
             (λ m0, m0 !! k = m !! k) (rpids mm) m m'); [|done..].
    intros m1 rpid m2 _ <- Hrp. by eapply rpid_step_foreign.
  - destruct (_ || _); [|by injection Hstep as <-].
    destruct (remote h _); injection Hstep as <-; [|done].
    apply lookup_insert_ne. by intros <-.
Qed.

Lemma descriptors_foreign pid p conns m m' (k : key) :
  foldM (descriptor_step h pt epm pid p) m conns = Ok m' →
  k.1.1.1 ≠ pid → k.1.1.2 ≠ -1 → m' !! k = m !! k.
Proof.
  intros Hfold Hk Hfd.
  apply (foldM_invariant (descriptor_step h pt epm pid p)
           (λ m0, m0 !! k = m !! k) conns m m'); [|done..].
  intros m1 conn m2 _ <- Hstep. by eapply descriptor_step_foreign.
Qed.

Lemma process_step_foreign m en m' (k : key) :
  process_step h pt epm m en = Ok m' →
  k.1.1.1 ≠ en.1 → k.1.1.2 ≠ -1 → m' !! k = m !! k.
Proof.
  intros (p & pp & _ & _ & Hfold)%process_step_Ok Hk Hfd.
  rewrite (descriptors_foreign _ _ _ _ _ k Hfold) by done.
  apply lookup_insert_ne. by intros <-.
Qed.

End foreign.

(** * The direction of a reciprocal pair *)

Section direction.
Context (h : host) (pt : processTable) (order1 order2 : list (Pid * option process)).
Hypothesis Hvisits1 : visits pt order1.
Hypothesis Hvisits2 : visits pt order2.

Context (P Q : Pid) (p q : process) (A B : Connection).
Hypothesis HQ : pt !! Q = Some (Some q).
Hypothesis HPQ : P ≠ Q.
Hypothesis HA : A ∈ Connections p.
Hypothesis HB : B ∈ Connections q.
Hypothesis HtA : transport (Type_ A).
Hypothesis HpeerA : Peer A ≠ "".
Hypothesis Hrec : reciprocal A B.
Hypothesis HfdB : Descriptor B ≠ -1.

(** When the second loop visits [P] before [Q], the iteration for [A]
    finds the pair unrecorded from the side of [Q] and leaves it
    recorded from the side of [P]. *)
Lemma first_visited_recorded epm connm l1 l2 :
  build_epm order1 = Ok epm → correlate h pt epm order2 = Ok connm →
  order2 = l1 ++ (P, Some p) :: l2 → Q ∉ l1.*1 →
  is_Some (connm !! (P, Descriptor A, Q, Descriptor B)).
Proof.
  intros Hepm Hcor Horder Hl1.
  assert (∀ e, e ∈ order2 → pt !! e.1 = Some e.2) as Hpt.
  { intros [pid op] Hin. by apply (visits_elem_of pt order2). }
  assert (pt !! P = Some (Some p)) as HP.
  { apply (Hpt (P, Some p)). rewrite Horder. set_solver. }
  unfold correlate in Hcor. rewrite Horder in Hcor, Hpt.
  apply foldM_split in Hcor as (s1 & s2 & Hpre & Hstep & Hrest).
  set (k2 := (Q, Descriptor B, P, Descriptor A) : key).
  assert (s1 !! k2 = None) as Hs1.
  { apply (foldM_invariant (process_step h pt epm) (λ m, m !! k2 = None)
             l1 ∅ s1); [|done..].
    intros m en m' Hin Hm Hen.
    rewrite (process_step_foreign h pt epm m en m' k2 Hen); [done| |done].
    simpl. intros ->. apply Hl1, list_elem_of_fmap. by exists en. }
  apply process_step_Ok in Hstep as (p' & pp & [= <-] & Hpp & Hfold). simpl in Hfold.
  apply list_elem_of_split in HA as (c1 & c2 & HcA). rewrite HcA in Hfold.
  apply foldM_split in Hfold as (sA & sB & HpreA & HstepA & HrestA).
  assert (sA !! k2 = None) as HsA.
  { rewrite (descriptors_foreign h pt epm P p c1 _ sA k2 HpreA) by (simpl; done).
    rewrite lookup_insert_ne; [done|]. intros Heq. apply HfdB. by inversion Heq. }
  assert (sB !! k2 = None) as HsB.
  { by rewrite (descriptor_step_foreign h pt epm P p sA A sB k2 HstepA). }
  assert (A ∈ Connections p) as HA' by (rewrite HcA; set_solver).
  destruct (descriptor_step_records_pair h pt order1 epm Hvisits1 Hepm P Q p q A B
              HP HQ HPQ HA' HB HtA HpeerA Hrec sA sB HstepA) as [Hk1|Hk2];
    [|fold k2 in Hk2; rewrite HsB in Hk2; by destruct Hk2].
  eapply evolves_known; [|done].
  eapply evolves_trans.
  - eapply (foldM_evolves h pt epm (descriptor_step h pt epm P p)); [|done].
    intros m0 x m0' Hx. apply descriptor_step_evolves; [done|].
    rewrite HcA. set_solver.
  - eapply correlate_from_evolves; [|done].
    intros e He. apply Hpt. set_solver.
Qed.

End direction.

(** C7 (amended): the result is strictly ascending by self process id,
    then peer process id, then self descriptor, then peer descriptor; it
    does not depend on the order in which the index loop visits the
    table nor on the order in which the keys of the connection map are
    enumerated before the sort; it is a function of the table and of the
    order in which the correlation loop visits it.  That order decides
    the direction of a reciprocal pair: on a closed table, when the loop
    visits the process of a descriptor [A] before the process of a
    descriptor [B] that meets the reciprocal condition for [A], the pair
    is recorded with [A] as self endpoint and not the other way round. *)
Theorem connections_determined h pt order1 order1' order2 :
  visits pt order1 → visits pt order1' → visits pt order2 →
  connections h order1 order2 pt = connections h order1' order2 pt
  ∧ StronglySorted (λ c1 c2, key_lt (key_of c1) (key_of c2))
                   (connections h order1 order2 pt)
  ∧ (∀ epm connm keys,
       build_epm order1 = Ok epm → correlate h pt epm order2 = Ok connm →
       enumerates connm keys →
       ordered keys connm = connections h order1 order2 pt)
  ∧ ∀ P Q p q A B l1 l2,
      closed pt → order2 = l1 ++ (P, Some p) :: l2 → Q ∉ l1.*1 →
      pt !! Q = Some (Some q) → P ≠ Q →
      A ∈ Connections p → B ∈ Connections q →
      transport (Type_ A) → Peer A ≠ "" → reciprocal A B →
      ordinary P → ordinary Q → 0 ≤ Descriptor A → 0 ≤ Descriptor B →
      (∃ c, c ∈ connections h order1 order2 pt
            ∧ key_of c = (P, Descriptor A, Q, Descriptor B))
      ∧ ¬ ∃ c, c ∈ connections h order1 order2 pt
               ∧ key_of c = (Q, Descriptor B, P, Descriptor A).
Proof.
  intros Hv1 Hv1' Hv2. split_and!.
  - pose proof (build_epm_order pt order1 order1' Hv1 Hv1') as Ho.
    unfold connections, connections_body.
    destruct (build_epm order1) as [epm|e], (build_epm order1') as [epm'|e'];
      simpl; [by subst|done..].
  - unfold connections.
    destruct (connections_body h order1 order2 pt) as [conns|e] eqn:Hbody;
      [|constructor].
    apply connections_body_Ok in Hbody as (epm & connm & Hepm & Hcor & ->).
    apply ordered_sorted. by eapply result_key_of.
  - intros epm connm keys Hepm Hcor Hkeys.
    rewrite (ordered_enumeration _ _ Hkeys). unfold connections.
    assert (connections_body h order1 order2 pt
            = Ok (ordered (map_to_list connm).*1 connm)) as ->; [|done].
    apply connections_body_Ok. eauto.
  - intros P Q p q A B l1 l2 Hc Horder Hl1 HQ HPQ HA HB HtA HpA Hrec HoP HoQ HfA HfB.
    destruct (connections_total h pt order1 order2 Hv1 Hv2 Hc)
      as (epm & connm & Hepm & Hcor & Hev & ->).
    pose proof (result_key_of h pt order1 order2 Hv2 epm connm Hepm Hcor) as Hkey.
    assert (pt !! P = Some (Some p)) as HP.
    { apply (visits_elem_of pt order2 P (Some p) Hv2). rewrite Horder. set_solver. }
    destruct (first_visited_recorded h pt order1 order2 Hv1 Hv2 P Q p q A B
                HQ HPQ HA HB HtA HpA Hrec ltac:(lia) epm connm l1 l2
                Hepm Hcor Horder Hl1) as [c Hc1].
    split.
    + exists c. split; [apply elem_of_ordered; eauto|by apply Hkey].
    + intros (c' & [k Hk]%elem_of_ordered & Hk').
      rewrite (Hkey _ _ Hk) in Hk'. subst k.
      apply (evolves_pair_exclusive h pt epm P Q p q A B HP HQ HPQ HpA ∅ connm);
        try done.
      rewrite lookup_empty. by intros [[] _].
Qed.

Lemma connections_determined_witness :
  connections Sample.host0 Sample.piped Sample.piped (table_of Sample.piped)
  = connections Sample.host0 Sample.piped_reversed Sample.piped (table_of Sample.piped)
  ∧ StronglySorted (λ c1 c2, key_lt (key_of c1) (key_of c2))
      (connections Sample.host0 Sample.piped Sample.piped (table_of Sample.piped))
  ∧ (∀ epm connm keys,
       build_epm Sample.piped = Ok epm →
       correlate Sample.host0 (table_of Sample.piped) epm Sample.piped = Ok connm →
       enumerates connm keys →
       ordered keys connm
       = connections Sample.host0 Sample.piped Sample.piped (table_of Sample.piped))
  ∧ ∀ P Q p q A B l1 l2,
      closed (table_of Sample.piped) →
      Sample.piped = l1 ++ (P, Some p) :: l2 → Q ∉ l1.*1 →
      table_of Sample.piped !! Q = Some (Some q) → P ≠ Q →
      A ∈ Connections p → B ∈ Connections q →
      transport (Type_ A) → Peer A ≠ "" → reciprocal A B →
      ordinary P → ordinary Q → 0 ≤ Descriptor A → 0 ≤ Descriptor B →
      (∃ c, c ∈ connections Sample.host0 Sample.piped Sample.piped
                  (table_of Sample.piped)
            ∧ key_of c = (P, Descriptor A, Q, Descriptor B))
      ∧ ¬ ∃ c, c ∈ connections Sample.host0 Sample.piped Sample.piped
                     (table_of Sample.piped)
               ∧ key_of c = (Q, Descriptor B, P, Descriptor A).
Proof.
  apply (connections_determined Sample.host0 (table_of Sample.piped)
           Sample.piped Sample.piped_reversed Sample.piped).
  - apply sample_visits_piped.
  - apply sample_visits_piped_reversed.
  - apply sample_visits_piped.
Defined.

(** C7, as stated, fails: the two ends of the sample pipe are recorded
    from the side of the process that the correlation loop visits first,
    process 10 in one order and process 20 in the other, so two passes
    over one table that visit it in different orders return different
    sequences. *)
Lemma connections_order_counterexample :
  visits (table_of Sample.piped) Sample.piped
  ∧ visits (table_of Sample.piped) Sample.piped_reversed
  ∧ (10, 3, 20, 4)
      ∈ key_of <$> connections Sample.host0 Sample.piped Sample.piped
                     (table_of Sample.piped)
  ∧ (20, 4, 10, 3)
      ∈ key_of <$> connections Sample.host0 Sample.piped Sample.piped_reversed
                     (table_of Sample.piped)
  ∧ connections Sample.host0 Sample.piped Sample.piped (table_of Sample.piped)
    ≠ connections Sample.host0 Sample.piped Sample.piped_reversed
        (table_of Sample.piped).
Proof.
  split_and!.
  - apply sample_visits_piped.
  - apply sample_visits_piped_reversed.
  - vm_compute. do 4 right. by left.
  - vm_compute. do 4 right. by left.
  - vm_compute. discriminate.
Qed.

(** * The edges of the node graph *)

Section edges.
Import Plugin.
Context (e : env) (tb : Table) (pid : Z).

Lemma host_step_write nm em conn nm' em' :
  Pid (Peer conn) < 0 →
  host_step e tb nm em conn = Ok (nm', em') → edge_write em em'.
Proof.
  intros Hneg. unfold host_step.
  destruct (net.SplitHostPort _) as [[host port] err].
  intros (arc & _ & (sn & _ & [= _ <-])%bind_Ok)%bind_Ok.
  by apply edge_host.
Qed.

Lemma data_step_write nm em conn nm' em' :
  MaxInt32 ≤ Pid (Peer conn) →
  data_step e tb nm em conn = Ok (nm', em') → edge_write em em'.
Proof.
  intros Hdata. unfold data_step. intros (sn & _ & Hstep)%bind_Ok.
  destruct (em !! _) as [ed|]; injection Hstep as _ <-;
    [apply edge_keep|by apply edge_data].
Qed.

Lemma peer_step_write nm em conn nm' em' :
  peer_step e tb nm em conn = Ok (nm', em') → edge_write em em'.
Proof.
  unfold peer_step. intros (peer & _ & (n & _ & Hstep)%bind_Ok)%bind_Ok.
  destruct (em !! edge_id (Pid (Self conn)) _) as [ed|] eqn:Hid.
  { injection Hstep as _ <-. by apply edge_relabel. }
  destruct (em !! edge_id (Pid (Peer conn)) _) as [ed|] eqn:Hdi.
  { injection Hstep as _ <-. by apply edge_relabel. }
  apply bind_Ok in Hstep as (sn & _ & [= _ <-]). by apply edge_new.
Qed.

Lemma connection_step_write st conn st' :
  connection_step e tb pid st conn = Ok st' → edge_write st.2 st'.2.
Proof.
  unfold connection_step. destruct (ignored pid conn).
  { intros [= <-]. apply edge_keep. }
  intros (n & _ & Hstep)%bind_Ok. destruct st' as [nm' em'].
  destruct (Z.ltb_spec (Pid (Peer conn)) 0).
  { by eapply host_step_write. }
  destruct (Z.leb_spec MaxInt32 (Pid (Peer conn))).
  { by eapply data_step_write. }
  by eapply peer_step_write.
Qed.

(** A property of the edge map kept by every such write holds of the
    assembled map. *)
Lemma assemble_invariant (I : edgemap → Prop) order nm em :
  (∀ em em', I em → edge_write em em' → I em') →
  I ∅ → assemble e tb pid order = Ok (nm, em) → I em.
Proof.
  intros Hw H0 Hasm.
  apply (foldM_invariant (table_step e tb pid) (λ st, I st.2) order (∅, ∅) (nm, em));
    [|done..].
  intros st [q op] st' _ Hst. unfold table_step.
  intros (p & _ & Hfold)%bind_Ok.
  apply (foldM_invariant (connection_step e tb pid) (λ st, I st.2)
           (Connections p) st st'); [|done..].
  intros st1 conn st2 _ H1 Hstep. eapply Hw; [done|].
  by eapply connection_step_write.
Qed.

(** Every edge is stored under its own id. *)
Lemma assemble_eid order nm em :
  assemble e tb pid order = Ok (nm, em) →
  ∀ k ed, em !! k = Some ed → eid ed = k.
Proof.
  apply (assemble_invariant (λ em, ∀ k ed, em !! k = Some ed → eid ed = k)).
  - intros em0 em' IH Hw k ed.
    destruct Hw as [|peer self ed0 ? ?|self peer ed0 ? ?|id ed0 line Hid
                    |self peer ed0 ? ? ?]; [by apply IH|..];
      rewrite lookup_insert_Some; (intros [[<- <-]|[_ ?]]; [|by apply IH]);
      try done.
    simpl. by apply IH.
  - intros k ed. by rewrite lookup_empty.
Qed.

Lemma edge_id_ne a b c d : a ≠ c ∨ b ≠ d → edge_id a b ≠ edge_id c d.
Proof. intros Hne [-> ->]%edge_id_inj. by destruct Hne. Qed.

(** Between two process nodes the map never holds an edge in each
    direction. *)
Lemma assemble_one_direction order nm em P Q :
  assemble e tb pid order = Ok (nm, em) →
  process_id P → process_id Q → P ≠ Q →
  ¬ (is_Some (em !! edge_id P Q) ∧ is_Some (em !! edge_id Q P)).
Proof.
  intros Hasm [HP0 HP1] [HQ0 HQ1] HPQ. revert Hasm.
  apply (assemble_invariant
           (λ em, ¬ (is_Some (em !! edge_id P Q) ∧ is_Some (em !! edge_id Q P)))).
  - intros em0 em' IH Hw.
    destruct Hw as [|peer self ed0 ? ?|self peer ed0 ? ?|id ed0 line Hid
                    |self peer ed0 Hn1 Hn2 ?]; [done|..].
    + rewrite !lookup_insert_ne; [done|apply edge_id_ne; lia..].
    + rewrite !lookup_insert_ne; [done|apply edge_id_ne; lia..].
    + intros [H1 H2]. apply IH. split.
      * apply lookup_insert_is_Some in H1 as [<-|[_ ?]]; [by eexists|done].
      * apply lookup_insert_is_Some in H2 as [<-|[_ ?]]; [by eexists|done].
    + destruct (decide (edge_id self peer = edge_id P Q)) as [Heq|Hne1].
      { apply edge_id_inj in Heq as [-> ->].
        rewrite (lookup_insert_ne _ (edge_id P Q) (edge_id Q P))
          by (apply edge_id_ne; auto).
        rewrite Hn2. by intros [_ []]. }
      destruct (decide (edge_id self peer = edge_id Q P)) as [Heq|Hne2].
      { apply edge_id_inj in Heq as [-> ->].
        rewrite (lookup_insert_ne _ (edge_id Q P) (edge_id P Q))
          by (apply edge_id_ne; auto).
        rewrite Hn2. by intros [[] _]. }
      by rewrite !lookup_insert_ne.
  - rewrite lookup_empty. by intros [[] _].
Qed.

End edges.

Section response.
Import Plugin.
Context (e : env) (tb : Table) (pid : Z) (order : list (Z * option Process)).

Lemma Nodegraph_frames ns es :
  Frames (Nodegraph e tb pid order) = Some (ns, es) →
  ∃ nm em, assemble e tb pid order = Ok (nm, em)
           ∧ es = sort_Slice edge_less (map_to_list em).*2.
Proof.
  unfold Nodegraph, Nodegraph_body.
  destruct (assemble e tb pid order) as [[nm em]|f]; simpl; [|done].
  intros [= <- <-]. eauto.
Qed.

Lemma elem_of_edges (em : edgemap) ed :
  ed ∈ sort_Slice edge_less (map_to_list em).*2 ↔ ∃ k, em !! k = Some ed.
Proof.
  rewrite elem_of_sort_Slice, list_elem_of_fmap. split.
  - intros ([k ed'] & -> & ?%elem_of_map_to_list). eauto.
  - intros [k ?]. exists (k, ed). by rewrite elem_of_map_to_list.
Qed.

Lemma edge_ids (em : edgemap) :
  (∀ k ed, em !! k = Some ed → eid ed = k) →
  eid <$> (map_to_list em).*2 = (map_to_list em).*1.
Proof.
  intros Hid. rewrite <-list_fmap_compose.
  apply Forall_fmap_ext, Forall_forall.
  intros [k ed] Hin%elem_of_map_to_list. simpl. by apply Hid.
Qed.
End response.

(** C9: the edges that [Nodegraph] returns carry pairwise distinct ids,
    and for two distinct process nodes P and Q they never hold both the
    id "P -> Q" and the id "Q -> P"; a connection between two process
    nodes that finds an edge of its pair, in its own or in the opposite
    direction, adds no edge: it replaces that edge by one with the same
    fields but for the label, which is the old label, a line feed and
    the type, a colon and the two endpoint names of the connection, in
    the direction of the edge. *)
Theorem one_edge_per_pair e tb pid order ns es P Q :
  Plugin.Frames (Plugin.Nodegraph e tb pid order) = Some (ns, es) →
  Plugin.process_id P → Plugin.process_id Q → P ≠ Q →
  ¬ (Plugin.edge_id P Q ∈ Plugin.eid <$> es ∧ Plugin.edge_id Q P ∈ Plugin.eid <$> es)
  ∧ NoDup (Plugin.eid <$> es)
  ∧ ∀ nm em conn nm' em',
      Plugin.peer_step e tb nm em conn = Ok (nm', em') →
      let self := Plugin.Self conn in
      let peer := Plugin.Peer conn in
      let id := Plugin.edge_id (Plugin.Pid self) (Plugin.Pid peer) in
      let di := Plugin.edge_id (Plugin.Pid peer) (Plugin.Pid self) in
      (∀ ed, em !! id = Some ed →
         em' = <[id := {| Plugin.etime := Plugin.etime ed;
                          Plugin.eid := Plugin.eid ed;
                          Plugin.esource := Plugin.esource ed;
                          Plugin.etarget := Plugin.etarget ed;
                          Plugin.emain := Plugin.emain ed;
                          Plugin.esecondary := Plugin.esecondary ed;
                          Plugin.elabel :=
                            Plugin.elabel ed +:+ String "010" ""
                            +:+ Plugin.Type_ conn +:+ ":" +:+ Plugin.Name self
                            +:+ " ‑> " +:+ Plugin.Name peer |}]> em)
      ∧ (∀ ed, em !! id = None → em !! di = Some ed →
           em' = <[di := {| Plugin.etime := Plugin.etime ed;
                            Plugin.eid := Plugin.eid ed;
                            Plugin.esource := Plugin.esource ed;
                            Plugin.etarget := Plugin.etarget ed;
                            Plugin.emain := Plugin.emain ed;
                            Plugin.esecondary := Plugin.esecondary ed;
                            Plugin.elabel :=
                              Plugin.elabel ed +:+ String "010" ""
                              +:+ Plugin.Type_ conn +:+ ":" +:+ Plugin.Name peer
                              +:+ " ‑> " +:+ Plugin.Name self |}]> em)
      ∧ (is_Some (em !! id) ∨ is_Some (em !! di) →
         ∀ k, is_Some (em' !! k) ↔ is_Some (em !! k)).
Proof.
  intros (nm & em & Hasm & ->)%Nodegraph_frames HP HQ HPQ.
  pose proof (assemble_eid e tb pid order nm em Hasm) as Hid. split_and!.
  - intros [H1 H2].
    apply (assemble_one_direction e tb pid order nm em P Q); [done..|].
    split.
    + apply list_elem_of_fmap in H1 as (ed & Heq & [k Hk]%elem_of_edges).
      rewrite (Hid _ _ Hk) in Heq. subst k. by eexists.
    + apply list_elem_of_fmap in H2 as (ed & Heq & [k Hk]%elem_of_edges).
      rewrite (Hid _ _ Hk) in Heq. subst k. by eexists.
  - rewrite sort_Slice_Permutation, edge_ids by done.
    apply NoDup_fst_map_to_list.
  - intros nm0 em0 conn nm' em' Hstep. cbn zeta. unfold Plugin.peer_step in Hstep.
    apply bind_Ok in Hstep as (peer & _ & (n & _ & Hstep)%bind_Ok). split_and!.
    + intros ed Hed. rewrite Hed in Hstep. by injection Hstep as _ <-.
    + intros ed Hnone Hed. rewrite Hnone, Hed in Hstep. by injection Hstep as _ <-.
    + intros Hsome k.
      destruct (em0 !! Plugin.edge_id (Plugin.Pid (Plugin.Self conn)) _)
        as [ed|] eqn:Hed.
      { injection Hstep as _ <-. rewrite lookup_insert_is_Some.
        split; [intros [<-|[_ ?]]; [by eexists|done]|].
        intros ?. destruct (decide (Plugin.edge_id (Plugin.Pid (Plugin.Self conn))
                                      (Plugin.Pid (Plugin.Peer conn)) = k)); auto. }
      destruct (em0 !! Plugin.edge_id (Plugin.Pid (Plugin.Peer conn)) _)
        as [ed|] eqn:Hdi.
      { injection Hstep as _ <-. rewrite lookup_insert_is_Some.
        split; [intros [<-|[_ ?]]; [by eexists|done]|].
        intros ?. destruct (decide (Plugin.edge_id (Plugin.Pid (Plugin.Peer conn))
                                      (Plugin.Pid (Plugin.Self conn)) = k)); auto. }
      destruct Hsome as [[]|[]]; done.
Qed.

Lemma one_edge_per_pair_witness :
  let es := PluginSample.pipeline_frames.2 in
  ¬ (Plugin.edge_id 10 20 ∈ Plugin.eid <$> es ∧ Plugin.edge_id 20 10 ∈ Plugin.eid <$> es)
  ∧ NoDup (Plugin.eid <$> es)
  ∧ ∀ nm em conn nm' em',
      Plugin.peer_step PluginSample.env0 PluginSample.pipeline_table nm em conn
      = Ok (nm', em') →
      let self := Plugin.Self conn in
      let peer := Plugin.Peer conn in
      let id := Plugin.edge_id (Plugin.Pid self) (Plugin.Pid peer) in
      let di := Plugin.edge_id (Plugin.Pid peer) (Plugin.Pid self) in
      (∀ ed, em !! id = Some ed →
         em' = <[id := {| Plugin.etime := Plugin.etime ed;
                          Plugin.eid := Plugin.eid ed;
                          Plugin.esource := Plugin.esource ed;
                          Plugin.etarget := Plugin.etarget ed;
                          Plugin.emain := Plugin.emain ed;
                          Plugin.esecondary := Plugin.esecondary ed;
                          Plugin.elabel :=
                            Plugin.elabel ed +:+ String "010" ""
                            +:+ Plugin.Type_ conn +:+ ":" +:+ Plugin.Name self
                            +:+ " ‑> " +:+ Plugin.Name peer |}]> em)
      ∧ (∀ ed, em !! id = None → em !! di = Some ed →
           em' = <[di := {| Plugin.etime := Plugin.etime ed;
                            Plugin.eid := Plugin.eid ed;
                            Plugin.esource := Plugin.esource ed;
                            Plugin.etarget := Plugin.etarget ed;
                            Plugin.emain := Plugin.emain ed;
                            Plugin.esecondary := Plugin.esecondary ed;
                            Plugin.elabel :=
                              Plugin.elabel ed +:+ String "010" ""
                              +:+ Plugin.Type_ conn +:+ ":" +:+ Plugin.Name peer
                              +:+ " ‑> " +:+ Plugin.Name self |}]> em)
      ∧ (is_Some (em !! id) ∨ is_Some (em !! di) →
         ∀ k, is_Some (em' !! k) ↔ is_Some (em !! k)).
Proof.
  apply (one_edge_per_pair PluginSample.env0 PluginSample.pipeline_table 10
           PluginSample.pipeline PluginSample.pipeline_frames.1
           PluginSample.pipeline_frames.2 10 20).
  - vm_compute; reflexivity.
  - unfold Plugin.process_id, Plugin.MaxInt32; lia.
  - unfold Plugin.process_id, Plugin.MaxInt32; lia.
  - lia.
Defined.

(** * Faults at the boundary of a pass *)

Section faults.
Import Main.
Context (h : host) (pt : processTable) (order1 order2 : list (Pid * option process)).
Hypothesis Hvisits1 : visits pt order1.
Hypothesis Hvisits2 : visits pt order2.

End faults.


Section assembly_faults.
Import Plugin.
Context (e : env) (tb : Table) (pid : Z).










End assembly_faults.



